(** * zmqpp: the multi-part message envelope and its big-endian codec

    A shallow embedding of [src/zmqpp/endian.hpp], [src/zmqpp/message.hpp]
    and [src/zmqpp/message.cpp], with the properties of the natural-language
    specification stated and settled against it.

    Conventions.
    - A w-bit C++ integer is a [Z]; conversions between integer types are
      written out ([to_unsigned], [to_signed]).
    - A byte is a [Z] in [0, 256); a buffer is a [list Z].
    - An iterator over a byte buffer is the buffer together with a position;
      dereferencing outside the buffer is undefined behaviour in C++ and is
      [None] here. *)

From Stdlib Require Import ZArith Lia List Bool Ascii String.
From stdpp Require Import base option list.

Local Open Scope Z_scope.

(** ** Machine integers *)

Module CInt.

(** [static_cast<uintN_t>(x)] *)
Definition to_unsigned (w x : Z) : Z := x mod 2 ^ w.

(** [static_cast<intN_t>(x)] (two's complement) *)
Definition to_signed (w x : Z) : Z :=
  let u := x mod 2 ^ w in
  if u <? 2 ^ (w - 1) then u else u - 2 ^ w.

Definition unsigned_range (w x : Z) : Prop := 0 <= x < 2 ^ w.
Definition signed_range (w x : Z) : Prop := - 2 ^ (w - 1) <= x < 2 ^ (w - 1).

End CInt.

(** ** The endian codec ([endian.hpp]) *)

Module Endian.
Import CInt.

(** *** The build target

    [endian.hpp] selects its implementation with preprocessor conditionals:
    a platform primitive ([htobe16]/[be16toh] and so on) where one is defined
    and [ZMQPP_FORCE_PORTABLE] is not, the shift-and-mask code otherwise; the
    portable 64-bit code further depends on [__WORDSIZE].  A [platform]
    records these choices together with the byte order of the host, which
    decides what the platform primitives and the union overlays do.

    [message.hpp] and [message.cpp] depend on two more choices of the build:
    whether [NDEBUG] is defined, which compiles the [assert]s of [<cassert>]
    out, and whether plain [char] is a signed type, which the ABI of the
    target (or [-funsigned-char]) decides. *)

Inductive byte_order := LittleEndian | BigEndian.
Inductive word_size := WordSize32 | WordSize64.

Record platform := Platform {
  host_order : byte_order;
  wordsize : word_size;   (* __WORDSIZE *)
  native16 : bool;        (* defined(htobe16) && !defined(ZMQPP_FORCE_PORTABLE) *)
  native32 : bool;        (* defined(htobe32) && !defined(ZMQPP_FORCE_PORTABLE) *)
  native64 : bool;        (* defined(htobe64) && !defined(ZMQPP_FORCE_PORTABLE) *)
  char_signed : bool;     (* CHAR_MIN < 0 *)
  ndebug : bool           (* defined(NDEBUG) *)
}.

(** *** Byte iterators ([_ByteIter]) *)

Record byte_iter := ByteIter { it_buf : list Z; it_pos : nat }.

(** [*dst++ = v], the assigned value converted to [uint8_t] *)
Definition put (v : Z) (dst : byte_iter) : option byte_iter :=
  if decide (it_pos dst < length (it_buf dst))%nat
  then Some (ByteIter (<[it_pos dst := to_unsigned 8 v]> (it_buf dst))
                      (S (it_pos dst)))
  else None.

(** [*src++] *)
Definition fetch (src : byte_iter) : option (Z * byte_iter) :=
  b ← it_buf src !! it_pos src;
  Some (b, ByteIter (it_buf src) (S (it_pos src))).

(** [copy_n(r._ba, n, dst)] with [r._ba] the [n] bytes [bs] *)
Fixpoint copy_n_to (bs : list Z) (dst : byte_iter) : option byte_iter :=
  match bs with
  | [] => Some dst
  | b :: bs' => dst' ← put b dst; copy_n_to bs' dst'
  end.

(** [copy_n(src, n, w._ba)]: the [n] bytes read *)
Fixpoint copy_n_from (n : nat) (src : byte_iter) : option (list Z) :=
  match n with
  | O => Some []
  | S n' => '(b, src') ← fetch src; bs ← copy_n_from n' src'; Some (b :: bs)
  end.

(** *** The host: object representation and byte-swap primitives

    The union overlays [{ uintN_t _x; struct { uint8_t _ba[N/8]; }; }] expose
    the object representation of an unsigned word, which is its bytes in the
    host's order.  [htobeN] and [beNtoh] (from the platform's [<endian.h>])
    are the identity on a big-endian host and reverse the bytes of the word
    on a little-endian one. *)

Fixpoint le_bytes (n : nat) (x : Z) : list Z :=
  match n with
  | O => []
  | S n' => x mod 256 :: le_bytes n' (x / 256)
  end.

Fixpoint le_value (bs : list Z) : Z :=
  match bs with
  | [] => 0
  | b :: bs' => b + 256 * le_value bs'
  end.

Definition object_bytes (o : byte_order) (n : nat) (x : Z) : list Z :=
  match o with
  | LittleEndian => le_bytes n x
  | BigEndian => rev (le_bytes n x)
  end.

Definition object_value (o : byte_order) (bs : list Z) : Z :=
  match o with
  | LittleEndian => le_value bs
  | BigEndian => le_value (rev bs)
  end.

Definition bswap (n : nat) (x : Z) : Z := le_value (rev (le_bytes n x)).

Definition htobe (o : byte_order) (n : nat) (x : Z) : Z :=
  match o with
  | LittleEndian => bswap n x
  | BigEndian => x
  end.

Definition betoh (o : byte_order) (n : nat) (x : Z) : Z := htobe o n x.

(** three targets: GCC on little-endian 64-bit Linux, where all three
    primitives exist and plain [char] is signed, built with the asserts and
    built with [-DNDEBUG]; and a big-endian 32-bit target with an unsigned
    plain [char], built with [ZMQPP_FORCE_PORTABLE] and [-DNDEBUG] *)
Definition linux_amd64 : platform :=
  Platform LittleEndian WordSize64 true true true true false.
Definition linux_amd64_ndebug : platform :=
  Platform LittleEndian WordSize64 true true true true true.
Definition portable_be32 : platform :=
  Platform BigEndian WordSize32 false false false false true.

(** *** [details::to_be_bytestream_converter] *)

(** [to_be_bytestream_converter<_ByteIter, uint16_t, 2>] *)
Definition to_be_uint16 (p : platform) (x : Z) (dst : byte_iter)
  : option byte_iter :=
  if native16 p then
    copy_n_to (object_bytes (host_order p) 2 (htobe (host_order p) 2 x)) dst
  else
    dst ← put (Z.land (Z.shiftr x 8) 255) dst;
    put (Z.land x 255) dst.

(** [to_be_bytestream_converter<_ByteIter, uint32_t, 4>] *)
Definition to_be_uint32 (p : platform) (x : Z) (dst : byte_iter)
  : option byte_iter :=
  if native32 p then
    copy_n_to (object_bytes (host_order p) 4 (htobe (host_order p) 4 x)) dst
  else
    dst ← put (Z.land (Z.shiftr x 24) 255) dst;
    dst ← put (Z.land (Z.shiftr x 16) 255) dst;
    dst ← put (Z.land (Z.shiftr x 8) 255) dst;
    put (Z.land x 255) dst.

(** [to_be_bytestream_converter<_ByteIter, uint64_t, 8>] *)
Definition to_be_uint64 (p : platform) (x : Z) (dst : byte_iter)
  : option byte_iter :=
  if native64 p then
    copy_n_to (object_bytes (host_order p) 8 (htobe (host_order p) 8 x)) dst
  else
    let hi := match wordsize p with
              | WordSize64 => Z.shiftr x 32
              | WordSize32 => to_unsigned 32 (Z.shiftr x 32)
              end in
    let lo := match wordsize p with
              | WordSize64 => x
              | WordSize32 => to_unsigned 32 (Z.land x 4294967295)
              end in
    dst ← put (Z.land (Z.shiftr hi 24) 255) dst;
    dst ← put (Z.land (Z.shiftr hi 16) 255) dst;
    dst ← put (Z.land (Z.shiftr hi 8) 255) dst;
    dst ← put (Z.land hi 255) dst;
    dst ← put (Z.land (Z.shiftr lo 24) 255) dst;
    dst ← put (Z.land (Z.shiftr lo 16) 255) dst;
    dst ← put (Z.land (Z.shiftr lo 8) 255) dst;
    put (Z.land lo 255) dst.

(** *** [details::from_be_bytestream_converter]

    The portable expressions read the bytes in the order they are written
    in the source, left to right. *)

(** [from_be_bytestream_converter<_ByteIter, uint16_t, 2>]; the operands
    are promoted to [int] for the shift and the result converted back *)
Definition from_be_uint16 (p : platform) (src : byte_iter) : option Z :=
  if native16 p then
    bs ← copy_n_from 2 src;
    Some (betoh (host_order p) 2 (object_value (host_order p) bs))
  else
    '(b0, src) ← fetch src;
    '(b1, src) ← fetch src;
    Some (to_unsigned 16
            (Z.lor (Z.shiftl (to_unsigned 16 b0) 8) (to_unsigned 16 b1))).

(** [x << k] in [uintN_t] arithmetic *)
Definition shl (w x k : Z) : Z := to_unsigned w (Z.shiftl x k).

(** [from_be_bytestream_converter<_ByteIter, uint32_t, 4>] *)
Definition from_be_uint32 (p : platform) (src : byte_iter) : option Z :=
  if native32 p then
    bs ← copy_n_from 4 src;
    Some (betoh (host_order p) 4 (object_value (host_order p) bs))
  else
    '(b0, src) ← fetch src;
    '(b1, src) ← fetch src;
    '(b2, src) ← fetch src;
    '(b3, src) ← fetch src;
    Some (Z.lor (Z.lor (Z.lor (shl 32 (to_unsigned 32 b0) 24)
                              (shl 32 (to_unsigned 32 b1) 16))
                       (shl 32 (to_unsigned 32 b2) 8))
                (to_unsigned 32 b3)).

(** [from_be_bytestream_converter<_ByteIter, uint64_t, 8>] *)
Definition from_be_uint64 (p : platform) (src : byte_iter) : option Z :=
  if native64 p then
    bs ← copy_n_from 8 src;
    Some (betoh (host_order p) 8 (object_value (host_order p) bs))
  else
    '(b0, src) ← fetch src;
    '(b1, src) ← fetch src;
    '(b2, src) ← fetch src;
    '(b3, src) ← fetch src;
    '(b4, src) ← fetch src;
    '(b5, src) ← fetch src;
    '(b6, src) ← fetch src;
    '(b7, src) ← fetch src;
    match wordsize p with
    | WordSize64 =>
        Some (Z.lor (Z.lor (Z.lor (Z.lor
                (shl 64 (Z.lor (Z.lor (Z.lor
                                  (shl 64 (to_unsigned 64 b0) 24)
                                  (shl 64 (to_unsigned 64 b1) 16))
                                  (shl 64 (to_unsigned 64 b2) 8))
                                  (to_unsigned 64 b3)) 32)
                (shl 64 (to_unsigned 64 b4) 24))
                (shl 64 (to_unsigned 64 b5) 16))
                (shl 64 (to_unsigned 64 b6) 8))
                (to_unsigned 64 b7))
    | WordSize32 =>
        Some (Z.lor
                (shl 64 (to_unsigned 64
                           (Z.lor (Z.lor (Z.lor
                              (shl 32 (to_unsigned 32 b0) 24)
                              (shl 32 (to_unsigned 32 b1) 16))
                              (shl 32 (to_unsigned 32 b2) 8))
                              (to_unsigned 32 b3))) 32)
                (to_unsigned 64
                   (Z.lor (Z.lor (Z.lor
                      (shl 32 (to_unsigned 32 b4) 24)
                      (shl 32 (to_unsigned 32 b5) 16))
                      (shl 32 (to_unsigned 32 b6) 8))
                      (to_unsigned 32 b7))))
    end.

(** *** Floating point

    The generic 4- and 8-byte converters overlay the value with an unsigned
    word of the same width in a union and convert that word.  Only the
    object representation of the floating-point value is ever used, so a
    [float] or [double] is its IEEE-754 fields: sign, biased exponent and
    fraction, [ew] and [fw] bits wide. *)

Record ieee754 := IEEE { sign : bool; biased_exponent : Z; fraction : Z }.

(** reading [r._wd._i] after initialising [r._x] *)
Definition float_to_bits (ew fw : Z) (f : ieee754) : Z :=
  Z.b2z (sign f) * 2 ^ (ew + fw) + biased_exponent f * 2 ^ fw + fraction f.

(** reading [w._x] after assigning [w._wd._i] *)
Definition bits_to_float (ew fw : Z) (i : Z) : ieee754 :=
  IEEE (Z.odd (i / 2 ^ (ew + fw))) ((i / 2 ^ fw) mod 2 ^ ew) (i mod 2 ^ fw).

Definition ieee754_range (ew fw : Z) (f : ieee754) : Prop :=
  0 <= biased_exponent f < 2 ^ ew /\ 0 <= fraction f < 2 ^ fw.

(** *** The supported scalar types *)

Inductive int_type :=
  uint16_t | int16_t | uint32_t | int32_t | uint64_t | int64_t.

Inductive scalar_type := t_int (t : int_type) | t_float | t_double.

Inductive scalar :=
| s_int (t : int_type) (v : Z)
| s_float (f : ieee754)
| s_double (f : ieee754).

Definition int_bytes (t : int_type) : nat :=
  match t with
  | uint16_t | int16_t => 2
  | uint32_t | int32_t => 4
  | uint64_t | int64_t => 8
  end%nat.

Definition sizeof (T : scalar_type) : nat :=
  match T with
  | t_int t => int_bytes t
  | t_float => 4
  | t_double => 8
  end%nat.

Definition type_of (x : scalar) : scalar_type :=
  match x with
  | s_int t _ => t_int t
  | s_float _ => t_float
  | s_double _ => t_double
  end.

Definition int_range (t : int_type) (v : Z) : Prop :=
  match t with
  | uint16_t => unsigned_range 16 v
  | int16_t => signed_range 16 v
  | uint32_t => unsigned_range 32 v
  | int32_t => signed_range 32 v
  | uint64_t => unsigned_range 64 v
  | int64_t => signed_range 64 v
  end.

(** the values a variable of the type can hold *)
Definition representable (x : scalar) : Prop :=
  match x with
  | s_int t v => int_range t v
  | s_float f => ieee754_range 8 23 f
  | s_double f => ieee754_range 11 52 f
  end.

(** *** The convenience functions [to_be] and [from_be<T>]

    Template resolution picks the full specialisation for the six integer
    types, where the signed ones cast to the unsigned type of their width,
    and the partial specialisation on the width for [float] and [double]. *)

Definition to_be (p : platform) (x : scalar) (dst : byte_iter)
  : option byte_iter :=
  match x with
  | s_int uint16_t v => to_be_uint16 p v dst
  | s_int int16_t v => to_be_uint16 p (to_unsigned 16 v) dst
  | s_int uint32_t v => to_be_uint32 p v dst
  | s_int int32_t v => to_be_uint32 p (to_unsigned 32 v) dst
  | s_int uint64_t v => to_be_uint64 p v dst
  | s_int int64_t v => to_be_uint64 p (to_unsigned 64 v) dst
  | s_float f => to_be_uint32 p (float_to_bits 8 23 f) dst
  | s_double f => to_be_uint64 p (float_to_bits 11 52 f) dst
  end.

Definition from_be (p : platform) (T : scalar_type) (src : byte_iter)
  : option scalar :=
  match T with
  | t_int uint16_t => s_int uint16_t <$> from_be_uint16 p src
  | t_int int16_t =>
      (fun u => s_int int16_t (to_signed 16 u)) <$> from_be_uint16 p src
  | t_int uint32_t => s_int uint32_t <$> from_be_uint32 p src
  | t_int int32_t =>
      (fun u => s_int int32_t (to_signed 32 u)) <$> from_be_uint32 p src
  | t_int uint64_t => s_int uint64_t <$> from_be_uint64 p src
  | t_int int64_t =>
      (fun u => s_int int64_t (to_signed 64 u)) <$> from_be_uint64 p src
  | t_float => (fun u => s_float (bits_to_float 8 23 u)) <$> from_be_uint32 p src
  | t_double =>
      (fun u => s_double (bits_to_float 11 52 u)) <$> from_be_uint64 p src
  end.

End Endian.

(** ** The wire format

    What the codec is meant to produce and consume, stated independently of
    the implementation selected: the bytes of a word, most significant
    first. *)

Module Wire.
Import CInt Endian.

Definition is_byte (b : Z) : Prop := 0 <= b < 256.

(** the [n] bytes of [x], most significant first, and the value of a byte
    sequence read that way *)
Definition be_bytes (n : nat) (x : Z) : list Z := rev (le_bytes n x).
Definition be_value (bs : list Z) : Z := le_value (rev bs).

(** the buffer after [bs] has been stored from offset [off] *)
Definition stored (bs : list Z) (buf : list Z) (off : nat) : list Z :=
  take off buf ++ bs ++ drop (off + length bs) buf.

(** the buffer holds the bytes [bs] from offset [off] *)
Definition holds (bs : list Z) (buf : list Z) (off : nat) : Prop :=
  forall i b, bs !! i = Some b -> buf !! (off + i)%nat = Some b.

(** the unsigned word a scalar is converted through *)
Definition wire_word (x : scalar) : Z :=
  match x with
  | s_int uint16_t v | s_int uint32_t v | s_int uint64_t v => v
  | s_int int16_t v => to_unsigned 16 v
  | s_int int32_t v => to_unsigned 32 v
  | s_int int64_t v => to_unsigned 64 v
  | s_float f => float_to_bits 8 23 f
  | s_double f => float_to_bits 11 52 f
  end.

(** the scalar of type [T] an unsigned word is converted to *)
Definition scalar_of_word (T : scalar_type) (w : Z) : scalar :=
  match T with
  | t_int uint16_t => s_int uint16_t w
  | t_int int16_t => s_int int16_t (to_signed 16 w)
  | t_int uint32_t => s_int uint32_t w
  | t_int int32_t => s_int int32_t (to_signed 32 w)
  | t_int uint64_t => s_int uint64_t w
  | t_int int64_t => s_int int64_t (to_signed 64 w)
  | t_float => s_float (bits_to_float 8 23 w)
  | t_double => s_double (bits_to_float 11 52 w)
  end.

End Wire.

(** ** The message ([message.hpp], [message.cpp]) *)

Module Message.
Import CInt Endian.

(** *** Frames *)

(** Modelled from the spec: the class [frame] ([frame.hpp], [frame.cpp]) is
    not among the sources.  A frame has a byte content whose length is fixed
    at construction and a one-way [sent] flag; ownership modes and release
    callbacks play no part in the properties settled here and are left out. *)
Record frame := Frame { frame_bytes : list Z; frame_sent : bool }.

(** Modelled from the spec: [frame(content, size)], create by copying. *)
Definition frame_of_bytes (content : list Z) : frame := Frame content false.

(** Modelled from the spec: [frame(size)], create with reserved capacity;
    the content is whatever the caller writes into it next, zero here. *)
Definition frame_reserve (n : nat) : frame := Frame (repeat 0 n) false.

(** Modelled from the spec: [frame::copy()], a new frame owning a duplicate
    of the content. *)
Definition frame_copy (f : frame) : frame := Frame (frame_bytes f) false.

(** Modelled from the spec: [frame::size()]. *)
Definition frame_size (f : frame) : nat := length (frame_bytes f).

(** Modelled from the spec: [frame::mark_sent()]. *)
Definition frame_mark_sent (f : frame) : frame := Frame (frame_bytes f) true.

(** *** Outcomes of a call *)

(** The two [zmqpp::exception]s of [message.hpp] and [message.cpp], told
    apart by their text. *)
Inductive exception :=
| part_out_of_range  (* attempting to request a message part outside the valid range *)
| unknown_type.      (* Attempting to convert a message part to an unknown type. *)

Inductive outcome (A : Type) : Type :=
| Returns (a : A)           (* normal return *)
| Throws (e : exception)    (* an exception leaves the call *)
| Aborts                    (* an assert fails *)
| Undefined.                (* undefined behaviour *)
Arguments Returns {A} a.
Arguments Throws {A} e.
Arguments Aborts {A}.
Arguments Undefined {A}.

#[global] Instance outcome_ret : MRet outcome := fun A a => Returns a.
#[global] Instance outcome_bind : MBind outcome := fun A B k o =>
  match o with
  | Returns a => k a
  | Throws e => Throws e
  | Aborts => Aborts
  | Undefined => Undefined
  end.

#[global] Instance outcome_fmap : FMap outcome := fun A B f o =>
  match o with
  | Returns a => Returns (f a)
  | Throws e => Throws e
  | Aborts => Aborts
  | Undefined => Undefined
  end.

(** [assert(e)] of [<cassert>]: with [NDEBUG] defined the macro expands to
    nothing and [e] is not evaluated; otherwise [e] is evaluated and the
    program aborts when it is false *)
Definition assert (p : platform) (e : outcome bool) : outcome unit :=
  if ndebug p then Returns tt
  else e ≫= fun b : bool => if b then Returns tt else Aborts.

(** unchecked [c[i]] on a [std::deque] *)
Definition at_index {A} (c : list A) (i : nat) : outcome A :=
  match c !! i with
  | Some a => Returns a
  | None => Undefined
  end.

(** a library call whose precondition may fail *)
Definition defined {A} (o : option A) : outcome A :=
  match o with
  | Some a => Returns a
  | None => Undefined
  end.

(** *** The class [message] *)

Record message := Message { _parts : list frame; _read_cursor : Z }.

(** arithmetic in [std::size_t] *)
Definition size_t (x : Z) : Z := to_unsigned 64 x.

(** [message::message()] *)
Definition empty_message : message := Message [] 0.

Definition parts (m : message) : Z := Z.of_nat (length (_parts m)).

Definition size (m : message) (part : nat) : outcome nat :=
  if decide (length (_parts m) <= part)%nat then Throws part_out_of_range
  else f ← at_index (_parts m) part; Returns (frame_size f).

(** the pointer returned is modelled by the bytes it points to *)
Definition raw_data (m : message) (part : nat) : outcome (list Z) :=
  if decide (length (_parts m) <= part)%nat then Throws part_out_of_range
  else f ← at_index (_parts m) part; Returns (frame_bytes f).

Definition raw_msg (m : message) (part : nat) : outcome frame :=
  if decide (length (_parts m) <= part)%nat then Throws part_out_of_range
  else at_index (_parts m) part.

(** *** Typed access: [get<Type>(part)]

    The integer typedefs follow the LP64 data model: [int] is [int32_t] and
    [long] is [int64_t]. *)

Inductive target_type :=
| g_string | g_char | g_const_char
| g_int | g_unsigned_int | g_long | g_unsigned_long
| g_int8_t | g_int16_t | g_signal | g_uint8_t | g_uint16_t
| g_float | g_double | g_bool
| g_pointer          (* any pointer type *)
| g_unspecialised.   (* any other type *)

Inductive value :=
| v_string (s : list Z)
| v_char (c : Z)
| v_scalar (x : scalar)
| v_int8 (v : Z)
| v_uint8 (v : Z)
| v_signal (v : Z)
| v_bool (b : bool)
| v_pointer (target : list Z).

(** the specialisations of the shape
    [assert(sizeof(T) == size(part)); return from_be<T>(bytes);] *)
Definition get_scalar (p : platform) (T : scalar_type) (m : message)
  (part : nat) : outcome scalar :=
  _ ← assert p (n ← size m part; Returns (bool_decide (sizeof T = n)));
  bytes ← raw_data m part;
  defined (from_be p T (ByteIter bytes 0)).

(** the specialisations of the shape
    [assert(sizeof(T) == size(part)); return *static_cast<const T*>(raw_data(part));] *)
Definition get_byte (p : platform) (m : message) (part : nat) : outcome Z :=
  _ ← assert p (n ← size m part; Returns (bool_decide (1%nat = n)));
  bytes ← raw_data m part;
  at_index bytes 0.

(** the value of a byte of a frame read through a [char const*] *)
Definition char_of_byte (p : platform) (b : Z) : Z :=
  if char_signed p then to_signed 8 b else b.

(** [get<int64_t>], which is [get<long>] *)
Definition get_int64 (p : platform) (m : message) (part : nat) : outcome Z :=
  x ← get_scalar p (t_int int64_t) m part;
  match x with
  | s_int _ v => Returns v
  | _ => Undefined
  end.

Definition get (p : platform) (T : target_type) (m : message) (part : nat)
  : outcome value :=
  match T with
  | g_string =>
      bytes ← raw_data m part; n ← size m part; Returns (v_string (take n bytes))
  | g_char | g_const_char =>
      (fun b => v_char (char_of_byte p b)) <$> get_byte p m part
  | g_int => v_scalar <$> get_scalar p (t_int int32_t) m part
  | g_unsigned_int => v_scalar <$> get_scalar p (t_int uint32_t) m part
  | g_long => v_scalar <$> get_scalar p (t_int int64_t) m part
  | g_unsigned_long => v_scalar <$> get_scalar p (t_int uint64_t) m part
  | g_int8_t => (fun b => v_int8 (to_signed 8 b)) <$> get_byte p m part
  | g_int16_t => v_scalar <$> get_scalar p (t_int int16_t) m part
  | g_signal =>
      (* sizeof(signal) is 8: its underlying type is int64_t *)
      v_signal <$> get_int64 p m part
  | g_uint8_t => v_uint8 <$> get_byte p m part
  | g_uint16_t => v_scalar <$> get_scalar p (t_int uint16_t) m part
  | g_float => v_scalar <$> get_scalar p t_float m part
  | g_double => v_scalar <$> get_scalar p t_double m part
  | g_bool => (fun b => v_bool (0 <? b)) <$> get_byte p m part
  | g_pointer => v_pointer <$> raw_data m part
  | g_unspecialised => Throws unknown_type
  end.

(** the target types [get<Type>] decodes: those with a specialisation, and
    the pointer types *)
Definition supported (T : target_type) : Prop := T <> g_unspecialised.

(** *** What a typed read is to deliver

    The decoding the specification asks of [get<T>] and of [>>], stated on
    the wire format and independently of the code above.  A string or a raw
    buffer is the content of the frame, unchanged.  A fixed-width scalar is
    the value of the content read big-endian, most significant byte first,
    and there is one only when the frame has the width of the type.  A
    one-byte type is the byte as the type reads it: a signed type reads the
    bytes from 128 on as negative, [bool] reads every byte but 0 as
    true. *)
Definition spec_decode (p : platform) (T : target_type) (content : list Z)
  : option value :=
  let word (S : scalar_type) : option scalar :=
    if decide (length content = sizeof S)
    then Some (Wire.scalar_of_word S (Wire.be_value content))
    else None in
  let byte : option Z :=
    match content with
    | [b] => Some b
    | _ => None
    end in
  let negative_from_128 (b : Z) : Z := if 128 <=? b then b - 256 else b in
  match T with
  | g_string => Some (v_string content)
  | g_pointer => Some (v_pointer content)
  | g_char | g_const_char =>
      (fun b => v_char (if char_signed p then negative_from_128 b else b))
        <$> byte
  | g_int8_t => (fun b => v_int8 (negative_from_128 b)) <$> byte
  | g_uint8_t => v_uint8 <$> byte
  | g_bool => (fun b => v_bool (negb (b =? 0))) <$> byte
  | g_int16_t => v_scalar <$> word (t_int int16_t)
  | g_uint16_t => v_scalar <$> word (t_int uint16_t)
  | g_int => v_scalar <$> word (t_int int32_t)
  | g_unsigned_int => v_scalar <$> word (t_int uint32_t)
  | g_long => v_scalar <$> word (t_int int64_t)
  | g_unsigned_long => v_scalar <$> word (t_int uint64_t)
  | g_float => v_scalar <$> word t_float
  | g_double => v_scalar <$> word t_double
  | g_signal =>
      if decide (length content = 8%nat)
      then Some (v_signal (to_signed 64 (Wire.be_value content)))
      else None
  | g_unspecialised => None
  end.

(** the content of a frame has the width of the type, where the type has
    one *)
Definition fits (T : target_type) (content : list Z) : Prop :=
  match T with
  | g_char | g_const_char | g_int8_t | g_uint8_t | g_bool =>
      length content = 1%nat
  | g_int16_t | g_uint16_t => length content = 2%nat
  | g_int | g_unsigned_int | g_float => length content = 4%nat
  | g_long | g_unsigned_long | g_signal | g_double => length content = 8%nat
  | g_string | g_pointer => True
  | g_unspecialised => False
  end.

(** *** Stream extraction and the read cursor *)

(** Modelled from the spec: [reset_read_cursor()] is declared in
    [message.hpp] and defined in no source file here; it rewinds the cursor
    to 0. *)
Definition reset_read_cursor (m : message) : message :=
  Message (_parts m) 0.

Definition read_cursor (m : message) : Z := _read_cursor m.

Definition remaining (m : message) : Z := size_t (parts m - _read_cursor m).

(** [++_read_cursor]: the new cursor and the message *)
Definition next (m : message) : Z * message :=
  let c := size_t (_read_cursor m + 1) in (c, Message (_parts m) c).

(** [msg >> content]: [content = msg.get<Type>(msg._read_cursor++)].  The
    increment is complete before [get] is entered; the message after the
    call is returned next to the outcome, whose value is what [content] is
    assigned. *)
Definition stream_extract (p : platform) (T : target_type) (m : message)
  : message * outcome value :=
  let part := _read_cursor m in
  let m' := Message (_parts m) (size_t (_read_cursor m + 1)) in
  (m', get p T m' (Z.to_nat part)).

(** *** Strings

    A [std::string] is its bytes; a [const char*] is the memory from the
    pointer on. *)

Definition c_str (s : list Z) : list Z := s ++ [0].

(** the bytes of a string given by its characters, and the memory a string
    literal points to *)
Definition bytes_of (s : string) : list Z :=
  map (fun c => Z.of_nat (nat_of_ascii c)) (list_ascii_of_string s).

Definition literal (s : string) : list Z := c_str (bytes_of s).

Fixpoint strlen (mem : list Z) : option nat :=
  match mem with
  | [] => None
  | b :: mem' => if b =? 0 then Some O else S <$> strlen mem'
  end.

(** *** Composition *)

Definition emplace_back (f : frame) (m : message) : message :=
  Message (_parts m ++ [f]) (_read_cursor m).

Definition emplace_front (f : frame) (m : message) : message :=
  Message (f :: _parts m) (_read_cursor m).

(** [add_raw(content, data_size)] copies [data_size] bytes from [content] *)
Definition add_raw (content : list Z) (data_size : nat) (m : message)
  : outcome message :=
  if decide (data_size <= length content)%nat
  then Returns (emplace_back (frame_of_bytes (take data_size content)) m)
  else Undefined.

(** [to_be(content, msg.raw_new_data(sizeof(_Type)))], the generic
    [operator<<] *)
Definition insert_scalar (p : platform) (x : scalar) (m : message)
  : outcome message :=
  let f := frame_reserve (sizeof (type_of x)) in
  dst ← defined (to_be p x (ByteIter (frame_bytes f) 0));
  Returns (emplace_back (Frame (it_buf dst) (frame_sent f)) m).

(** [operator<< <uint8_t>]: [msg.add_raw(&byte)] *)
Definition insert_uint8 (byte : Z) (m : message) : outcome message :=
  add_raw [byte] 1 m.

(** [operator<< <const char*>] *)
Definition insert_c_string (c_string : list Z) (m : message)
  : outcome message :=
  n ← defined (strlen c_string);
  add_raw c_string n m.

(** what can be inserted: the types with a specialisation of [operator<<]
    and the scalars the codec converts *)
Inductive insertable :=
| i_scalar (x : scalar)
| i_uint8 (byte : Z)
| i_int8 (ch : Z)
| i_signal (sig : Z)
| i_bool (truth : bool)
| i_c_string (c_string : list Z)
| i_string (std_string : list Z).

(** [msg << content] *)
Definition stream_insert (p : platform) (content : insertable) (m : message)
  : outcome message :=
  match content with
  | i_scalar x => insert_scalar p x m
  | i_uint8 byte => insert_uint8 byte m
  | i_int8 ch => insert_uint8 (to_unsigned 8 ch) m
  | i_signal sig => insert_scalar p (s_int int64_t sig) m
  | i_bool truth => insert_uint8 (if truth then 1 else 0) m
  | i_c_string c_string => insert_c_string c_string m
  | i_string std_string => insert_c_string (c_str std_string) m
  end.

(** *** Queue manipulation *)

(** [push_front(void const* content, std::size_t size)] *)
Definition push_front (content : list Z) (size : nat) (m : message)
  : outcome message :=
  if decide (size <= length content)%nat
  then Returns (emplace_front (frame_of_bytes (take size content)) m)
  else Undefined.

(** [push_front(char const* c_string)] *)
Definition push_front_c_string (c_string : list Z) (m : message)
  : outcome message :=
  n ← defined (strlen c_string);
  push_front c_string n m.

(** [push_front(std::string const& string)]:
    [push_front(string.data(), string.size())] *)
Definition push_front_string (string : list Z) (m : message)
  : outcome message :=
  push_front (c_str string) (length string) m.

(** the template [push_front(_Type content)]:
    [to_be(content, raw_new_data_front(sizeof(_Type)))] *)
Definition push_front_scalar (p : platform) (x : scalar) (m : message)
  : outcome message :=
  let f := frame_reserve (sizeof (type_of x)) in
  dst ← defined (to_be p x (ByteIter (frame_bytes f) 0));
  Returns (emplace_front (Frame (it_buf dst) (frame_sent f)) m).

(** [m.push_front(content)] by the type of [content]: the overloads for
    strings, the specialisations [push_front<uint8_t>], [<int8_t>],
    [<signal>] and [<bool>], and the template *)
Definition push_front_value (p : platform) (content : insertable)
  (m : message) : outcome message :=
  match content with
  | i_scalar x => push_front_scalar p x m
  | i_uint8 byte => push_front [byte] 1 m
  | i_int8 ch => push_front [to_unsigned 8 ch] 1 m
  | i_signal sig => push_front_scalar p (s_int int64_t sig) m
  | i_bool truth => push_front [if truth then 1 else 0] 1 m
  | i_c_string c_string => push_front_c_string c_string m
  | i_string string => push_front_string string m
  end.

(** [push_back(void const* content, std::size_t data_size)] *)
Definition push_back (content : list Z) (data_size : nat) (m : message)
  : outcome message :=
  add_raw content data_size m.

Definition pop_front (m : message) : outcome message :=
  match _parts m with
  | [] => Undefined
  | _ :: ps => Returns (Message ps (_read_cursor m))
  end.

Definition pop_back (m : message) : outcome message :=
  match _parts m with
  | [] => Undefined
  | _ :: _ => Returns (Message (removelast (_parts m)) (_read_cursor m))
  end.

(** [_parts.erase(_parts.begin() + part)] *)
Definition remove (part : nat) (m : message) : outcome message :=
  if decide (part < length (_parts m))%nat
  then Returns (Message (delete part (_parts m)) (_read_cursor m))
  else Undefined.

(** [assert(!_parts[part].is_sent()); _parts[part].mark_sent();] *)
Definition sent (p : platform) (part : nat) (m : message) : outcome message :=
  _ ← assert p (f ← at_index (_parts m) part; Returns (negb (frame_sent f)));
  f ← at_index (_parts m) part;
  Returns (Message (<[part := frame_mark_sent f]> (_parts m)) (_read_cursor m)).

(** *** Move and copy *)

(** [swap(lhs, rhs)]: the two messages after the exchange *)
Definition swap (lhs rhs : message) : message * message :=
  (Message (_parts rhs) (_read_cursor rhs),
   Message (_parts lhs) (_read_cursor lhs)).

(** [message(message&& source)]: the new message and the source.  The
    constructor has no member initialiser, so [_parts] starts empty and
    [_read_cursor] with an indeterminate value. *)
Definition move_construct (indeterminate : Z) (source : message)
  : message * message :=
  swap (Message [] indeterminate) source.

(** [lhs = std::move(rhs)]: the two messages after the assignment *)
Definition move_assign (lhs rhs : message) : message * message :=
  swap (reset_read_cursor lhs) rhs.

(** [_parts.resize(n)] *)
Definition resize (n : nat) (ps : list frame) : list frame :=
  take n ps ++ repeat (Frame [] false) (n - length ps).

(** the loop of [copy], [count] iterations from [ndx]:
    [_parts[ndx] = source._parts[ndx].copy()] *)
Fixpoint copy_loop (count ndx : nat) (source ps : list frame)
  : outcome (list frame) :=
  match count with
  | O => Returns ps
  | S count' =>
      f ← at_index source ndx;
      copy_loop count' (S ndx) source (<[ndx := frame_copy f]> ps)
  end.

(** [copy(const message& source)], copy-in *)
Definition copy (source m : message) : outcome message :=
  let ps := resize (length (_parts source)) (_parts m) in
  ps' ← copy_loop (length ps) 0 (_parts source) ps;
  Returns (Message ps' (_read_cursor source)).

(** [copy() const], copy-out *)
Definition copy_out (m : message) : outcome message :=
  copy m empty_message.

(** *** Signals *)

(** Modelled from the spec: [signal.hpp] is not among the sources.  A signal
    is a 64-bit value, 8 bytes wide, whose low byte is the code and whose
    remaining bits are the reserved header [header]. *)
Definition sizeof_signal : nat := 8.

(** [parts() == 1 && size(0) == sizeof(signal)
     && static_cast<signal>(get<int64_t>(0) >> 8) == signal::header];
    [>>] on a signed value is the arithmetic shift, as [Z.shiftr] is *)
Definition is_signal (header : Z) (p : platform) (m : message)
  : outcome bool :=
  if decide (parts m = 1) then
    n ← size m 0;
    if decide (n = sizeof_signal) then
      v ← get_int64 p m 0;
      Returns (bool_decide (Z.shiftr v 8 = header))
    else Returns false
  else Returns false.

(** Modelled from the spec: the signal encoder, the code in the low byte
    or'ed with the header in the remaining bits. *)
Definition make_signal (header code : Z) : Z :=
  Z.lor (Z.shiftl header 8) (Z.land code 255).

(** *** What a message object can hold *)

(** the cursor is a [std::size_t], and a container of [2^64 - 1] frames does
    not fit a 64-bit address space *)
Definition well_formed (m : message) : Prop :=
  0 <= _read_cursor m < 2 ^ 64 /\ parts m < 2 ^ 64 - 1.

(** the content of a frame is made of bytes ([uint8_t]) *)
Definition bytes_ok (m : message) : Prop :=
  Forall (fun f => Forall Wire.is_byte (frame_bytes f)) (_parts m).

(** *** Sequences of public operations *)

Inductive operation :=
| op_insert (content : insertable)              (* m << content *)
| op_extract (T : target_type)                  (* m >> x *)
| op_next                                       (* m.next() *)
| op_push_front (content : list Z) (data_size : nat) (* m.push_front(content, size) *)
| op_push_front_value (content : insertable)    (* m.push_front(content) *)
| op_push_back (content : list Z) (data_size : nat)  (* m.push_back(content, size) *)
| op_push_back_value (content : insertable)     (* m.push_back(content) *)
| op_pop_front                                  (* m.pop_front() *)
| op_pop_back                                   (* m.pop_back() *)
| op_remove (part : nat)                        (* m.remove(part) *)
| op_reset_read_cursor                          (* m.reset_read_cursor() *)
| op_move_assign_from (rhs : message)           (* m = std::move(rhs) *)
| op_move_assign_to (lhs : message)             (* lhs = std::move(m) *)
| op_copy (source : message).                   (* m.copy(source) *)

(** the other message an operation involves *)
Definition operand (op : operation) : option message :=
  match op with
  | op_move_assign_from rhs => Some rhs
  | op_move_assign_to lhs => Some lhs
  | op_copy source => Some source
  | _ => None
  end.

Definition returned {A} (o : outcome A) : option A :=
  match o with
  | Returns a => Some a
  | _ => None
  end.

(** The message after the operation, when the program goes on: the call
    returned, or threw an exception that the caller caught.  [None] when an
    assert failed or the behaviour is undefined. *)
Definition step (p : platform) (op : operation) (m : message)
  : option message :=
  match op with
  | op_insert content => returned (stream_insert p content m)
  | op_extract T =>
      let '(m', o) := stream_extract p T m in
      match o with
      | Returns _ | Throws _ => Some m'
      | Aborts | Undefined => None
      end
  | op_next => Some (snd (next m))
  | op_push_front content n => returned (push_front content n m)
  | op_push_front_value content => returned (push_front_value p content m)
  | op_push_back content n => returned (push_back content n m)
  | op_push_back_value content =>
      (* the template push_back(_Type content) is *this << content *)
      returned (stream_insert p content m)
  | op_pop_front => returned (pop_front m)
  | op_pop_back => returned (pop_back m)
  | op_remove part => returned (remove part m)
  | op_reset_read_cursor => Some (reset_read_cursor m)
  | op_move_assign_from rhs => Some (fst (move_assign m rhs))
  | op_move_assign_to lhs => Some (snd (move_assign lhs m))
  | op_copy source => returned (copy source m)
  end.


(** the operations that consume a frame or move the cursor are applied
    while the cursor is below [parts()] *)
Definition guarded (op : operation) (m : message) : Prop :=
  match op with
  | op_extract _ | op_next | op_pop_front | op_pop_back | op_remove _ =>
      _read_cursor m < parts m
  | _ => True
  end.

Inductive guarded_reachable (p : platform) : message -> Prop :=
| guarded_empty : guarded_reachable p empty_message
| guarded_step m op m' :
    guarded_reachable p m ->
    (forall o, operand op = Some o -> guarded_reachable p o) ->
    guarded op m ->
    step p op m = Some m' ->
    guarded_reachable p m'.


(** what an operation does to the cursor and to the part count *)
Definition step_effect (op : operation) (m m' : message) : Prop :=
  match op with
  | op_insert _ | op_push_front _ _ | op_push_front_value _
  | op_push_back _ _ | op_push_back_value _ =>
      _read_cursor m' = _read_cursor m /\ parts m' = parts m + 1
  | op_extract _ | op_next =>
      _read_cursor m' = size_t (_read_cursor m + 1) /\ parts m' = parts m
  | op_pop_front | op_pop_back | op_remove _ =>
      _read_cursor m' = _read_cursor m /\ parts m' = parts m - 1
      /\ 0 < parts m
  | op_reset_read_cursor => _read_cursor m' = 0 /\ parts m' = parts m
  | op_move_assign_from rhs => m' = rhs
  | op_move_assign_to lhs => _read_cursor m' = 0 /\ parts m' = parts lhs
  | op_copy source =>
      _read_cursor m' = _read_cursor source /\ parts m' = parts source
  end.

End Message.

(** ** Composition and extraction of several parts ([message.hpp])

    The variadic members [add] and [extract], chained stream extraction, and
    what the insertions put on the wire. *)

Module Usage.
Import CInt Endian Wire Message.

(** [static_cast<T>(x)] for an integer type [T] *)
Definition cast_int (t : int_type) (v : Z) : Z :=
  match t with
  | uint16_t => to_unsigned 16 v
  | int16_t => to_signed 16 v
  | uint32_t => to_unsigned 32 v
  | int32_t => to_signed 32 v
  | uint64_t => to_unsigned 64 v
  | int64_t => to_signed 64 v
  end.

(** the [get<>] specialisation for a scalar type (LP64: [int32_t] is [int],
    [int64_t] is [long]) *)
Definition target_of (T : scalar_type) : target_type :=
  match T with
  | t_int uint16_t => g_uint16_t
  | t_int int16_t => g_int16_t
  | t_int uint32_t => g_unsigned_int
  | t_int int32_t => g_int
  | t_int uint64_t => g_unsigned_long
  | t_int int64_t => g_long
  | t_float => g_float
  | t_double => g_double
  end.

(** [add(content, args...)]: [*this << content; add(args...);] *)
Fixpoint add (p : platform) (content : insertable) (args : list insertable)
  (m : message) {struct args} : outcome message :=
  m' ← stream_insert p content m;
  match args with
  | [] => Returns m'
  | content' :: args' => add p content' args' m'
  end.

(** [extract<part>(next_content, args...)]:
    [assert(part < parts()); next_content = get<T>(part);
     extract<part+1>(args...);] *)
Fixpoint extract (p : platform) (part : nat) (T : target_type)
  (Ts : list target_type) (m : message) {struct Ts} : outcome (list value) :=
  _ ← assert p (Returns (bool_decide (Z.of_nat part < parts m)));
  next_content ← get p T m part;
  match Ts with
  | [] => Returns [next_content]
  | T' :: Ts' =>
      rest ← extract p (S part) T' Ts' m; Returns (next_content :: rest)
  end.

(** [msg >> x1 >> x2 >> ...]: [operator>>] returns the message, and an
    exception, a failed assert or undefined behaviour ends the chain where
    it happens.  The message after the chain and the values assigned. *)
Fixpoint stream_extract_chain (p : platform) (Ts : list target_type)
  (m : message) : message * outcome (list value) :=
  match Ts with
  | [] => (m, Returns [])
  | T :: Ts' =>
      let '(m1, o) := stream_extract p T m in
      match o with
      | Returns v =>
          let '(m2, os) := stream_extract_chain p Ts' m1 in (m2, cons v <$> os)
      | Throws e => (m1, Throws e)
      | Aborts => (m1, Aborts)
      | Undefined => (m1, Undefined)
      end
  end.

(** the frame size a [get<>] specialisation asserts, if it asserts one *)
Definition frame_width (T : target_type) : option nat :=
  match T with
  | g_char | g_const_char | g_int8_t | g_uint8_t | g_bool => Some 1
  | g_int16_t | g_uint16_t => Some 2
  | g_int | g_unsigned_int | g_float => Some 4
  | g_long | g_unsigned_long | g_signal | g_double => Some 8
  | g_string | g_pointer | g_unspecialised => None
  end%nat.

(** the bytes of a C string: those before the first NUL *)
Fixpoint until_nul (mem : list Z) : list Z :=
  match mem with
  | [] => []
  | b :: mem' => if b =? 0 then [] else b :: until_nul mem'
  end.

(** the content of the frame an insertion appends *)
Definition inserted_bytes (content : insertable) : list Z :=
  match content with
  | i_scalar x => be_bytes (sizeof (type_of x)) (wire_word x)
  | i_uint8 byte => [byte]
  | i_int8 ch => [to_unsigned 8 ch]
  | i_signal sig => be_bytes 8 (to_unsigned 64 sig)
  | i_bool truth => [if truth then 1 else 0]
  | i_c_string c_string => until_nul c_string
  | i_string std_string => until_nul std_string
  end.

(** the frames [add] appends *)
Definition encoded (contents : list insertable) : list frame :=
  map (fun content => frame_of_bytes (inserted_bytes content)) contents.

(** the precondition of an insertion: a C string is terminated *)
Definition insert_defined (content : insertable) : Prop :=
  match content with
  | i_c_string c_string => In 0 c_string
  | _ => True
  end.

(** the inserted value is one its C++ type can hold *)
Definition insertable_ok (content : insertable) : Prop :=
  match content with
  | i_scalar x => representable x
  | i_uint8 byte => is_byte byte
  | i_int8 ch => signed_range 8 ch
  | i_signal sig => signed_range 64 sig
  | i_bool _ => True
  | i_c_string c_string => In 0 c_string
  | i_string _ => True
  end.

(** the type to read an inserted value back with, and the value read *)
Definition read_back (content : insertable) : target_type * value :=
  match content with
  | i_scalar x => (target_of (type_of x), v_scalar x)
  | i_uint8 byte => (g_uint8_t, v_uint8 byte)
  | i_int8 ch => (g_int8_t, v_int8 ch)
  | i_signal sig => (g_signal, v_signal sig)
  | i_bool truth => (g_bool, v_bool truth)
  | i_c_string c_string => (g_string, v_string (until_nul c_string))
  | i_string std_string => (g_string, v_string (until_nul std_string))
  end.

End Usage.

(** * Properties *)

(** ** Facts about machine integers *)

Module CIntFacts.
Import CInt.

Lemma to_unsigned_range w x : 0 <= w -> unsigned_range w (to_unsigned w x).
Proof.
  intros Hw. unfold unsigned_range, to_unsigned.
  apply Z.mod_pos_bound. apply Z.pow_pos_nonneg; lia.
Qed.

Lemma to_unsigned_small w x : unsigned_range w x -> to_unsigned w x = x.
Proof. intros H. unfold to_unsigned. apply Z.mod_small. exact H. Qed.

Lemma pow2_half w : 0 < w -> 2 ^ w = 2 * 2 ^ (w - 1).
Proof.
  intros Hw. replace w with (Z.succ (w - 1)) at 1 by lia.
  rewrite Z.pow_succ_r by lia. reflexivity.
Qed.

Lemma to_signed_to_unsigned w x :
  0 < w -> signed_range w x -> to_signed w (to_unsigned w x) = x.
Proof.
  intros Hw [Hlo Hhi]. unfold to_signed, to_unsigned.
  assert (Hp : 0 < 2 ^ (w - 1)) by (apply Z.pow_pos_nonneg; lia).
  pose proof (pow2_half w Hw) as Hh.
  rewrite Z.mod_mod by lia.
  destruct (Z_lt_le_dec x 0) as [Hneg | Hpos].
  - assert (Hm : x mod 2 ^ w = x + 2 ^ w).
    { symmetry. apply (Z.mod_unique x (2 ^ w) (-1)); [left; lia | lia]. }
    rewrite Hm. destruct (Z.ltb_spec (x + 2 ^ w) (2 ^ (w - 1))); lia.
  - rewrite Z.mod_small by lia.
    destruct (Z.ltb_spec x (2 ^ (w - 1))); lia.
Qed.

(** The low [w] bits do not depend on the signed or unsigned reading. *)
Lemma land_shiftr_to_unsigned w k x :
  0 <= k -> k + 8 <= w ->
  Z.land (Z.shiftr (to_unsigned w x) k) 255 = Z.land (Z.shiftr x k) 255.
Proof.
  intros Hk Hw. unfold to_unsigned.
  change 255 with (Z.ones 8).
  apply Z.bits_inj'. intros n Hn.
  rewrite !Z.land_spec, !Z.shiftr_spec by lia.
  destruct (Z.ltb_spec n 8) as [Hlt | Hge].
  - rewrite Z.mod_pow2_bits_low by lia. reflexivity.
  - rewrite Z.ones_spec_high by lia. rewrite !andb_false_r. reflexivity.
Qed.

End CIntFacts.

(** ** Facts about the codec *)

Module EndianFacts.
Import CInt CIntFacts Endian Wire.

(** *** Bit operations as arithmetic *)

Lemma land_255 x : Z.land x 255 = x mod 256.
Proof. change 255 with (Z.ones 8). rewrite Z.land_ones by lia. reflexivity. Qed.

Lemma land_shiftr_255 x k :
  0 <= k -> Z.land (Z.shiftr x k) 255 = (x / 2 ^ k) mod 256.
Proof. intros Hk. rewrite land_255, Z.shiftr_div_pow2 by lia. reflexivity. Qed.

Lemma lor_add a b k :
  0 <= k -> 0 <= b < 2 ^ k -> a mod 2 ^ k = 0 -> Z.lor a b = a + b.
Proof.
  intros Hk Hb Ha.
  rewrite <- Z.lxor_lor, <- Z.add_nocarry_lxor; try reflexivity.
  all: apply Z.bits_inj'; intros n Hn; rewrite Z.land_spec, Z.bits_0.
  all: destruct (Z.ltb_spec n k) as [Hlt | Hge].
  all: try (rewrite <- (Z.mod_pow2_bits_low a k n), Ha, Z.bits_0 by lia;
            reflexivity).
  all: rewrite <- (Z.mod_small b (2 ^ k)) by lia.
  all: rewrite (Z.mod_pow2_bits_high b k n) by lia.
  all: apply andb_false_r.
Qed.

(** *** Writing through an iterator *)

Lemma put_in_range v buf off :
  (off < length buf)%nat ->
  put v (ByteIter buf off)
  = Some (ByteIter (<[off := to_unsigned 8 v]> buf) (S off)).
Proof. intros H. unfold put. cbn. rewrite decide_True by lia. reflexivity. Qed.

Lemma stored_cons b bs buf off :
  (off < length buf)%nat ->
  stored bs (<[off := b]> buf) (S off) = stored (b :: bs) buf off.
Proof.
  intros H. unfold stored. cbn [length app].
  rewrite (take_S_r _ _ b) by (apply list_lookup_insert_eq; lia).
  rewrite take_insert_ge by lia.
  rewrite drop_insert_lt by lia.
  rewrite <- app_assoc. cbn.
  replace (off + S (length bs))%nat with (S (off + length bs)) by lia.
  reflexivity.
Qed.

Lemma copy_n_to_stored bs : forall buf off,
  (off + length bs <= length buf)%nat ->
  copy_n_to bs (ByteIter buf off)
  = Some (ByteIter (stored (map (to_unsigned 8) bs) buf off)
                   (off + length bs)).
Proof.
  induction bs as [| b bs IH]; intros buf off Hlen; cbn [copy_n_to length map].
  - unfold stored. cbn. rewrite Nat.add_0_r, take_drop. reflexivity.
  - cbn [length] in Hlen. rewrite put_in_range by lia. cbn.
    rewrite IH by (rewrite length_insert; lia).
    rewrite stored_cons by lia.
    replace (S off + length bs)%nat with (off + S (length bs))%nat by lia.
    reflexivity.
Qed.

Lemma length_stored bs buf off :
  (off + length bs <= length buf)%nat ->
  length (stored bs buf off) = length buf.
Proof.
  intros H. unfold stored.
  rewrite !length_app, length_take, length_drop. lia.
Qed.

Lemma stored_lookup_inside bs buf off i b :
  (off <= length buf)%nat -> bs !! i = Some b ->
  stored bs buf off !! (off + i)%nat = Some b.
Proof.
  intros Hoff Hb. unfold stored.
  rewrite lookup_app_r by (rewrite length_take; lia).
  rewrite length_take.
  replace (off + i - off `min` length buf)%nat with i by lia.
  apply lookup_app_l_Some. exact Hb.
Qed.

Lemma stored_lookup_outside bs buf off j :
  (off + length bs <= length buf)%nat ->
  (j < off \/ off + length bs <= j)%nat ->
  stored bs buf off !! j = buf !! j.
Proof.
  intros Hlen Hj. unfold stored. destruct Hj as [Hj | Hj].
  - rewrite lookup_app_l by (rewrite length_take; lia).
    apply lookup_take_lt. lia.
  - rewrite lookup_app_r by (rewrite length_take; lia).
    rewrite lookup_app_r by (rewrite length_take; lia).
    rewrite lookup_drop, length_take. f_equal. lia.
Qed.

Lemma bind_Some_r {A} (o : option A) : (o ≫= Some) = o.
Proof. destruct o; reflexivity. Qed.

(** *** The host model *)

Lemma le_bytes_length n : forall x, length (le_bytes n x) = n.
Proof. induction n as [| n IH]; intros x; cbn; [| rewrite IH]; reflexivity. Qed.

Lemma le_bytes_are_bytes n : forall x, Forall is_byte (le_bytes n x).
Proof.
  induction n as [| n IH]; intros x; cbn; constructor; [| apply IH].
  unfold is_byte. apply Z.mod_pos_bound. lia.
Qed.

Lemma le_bytes_le_value bs :
  Forall is_byte bs -> le_bytes (length bs) (le_value bs) = bs.
Proof.
  induction 1 as [| b bs Hb Hbs IH]; cbn [length le_bytes le_value].
  - reflexivity.
  - unfold is_byte in Hb.
    replace ((b + 256 * le_value bs) mod 256) with b
      by (Z.div_mod_to_equations; lia).
    replace ((b + 256 * le_value bs) / 256) with (le_value bs)
      by (Z.div_mod_to_equations; lia).
    rewrite IH. reflexivity.
Qed.

Lemma le_value_le_bytes n : forall x,
  le_value (le_bytes n x) = x mod 2 ^ (8 * Z.of_nat n).
Proof.
  induction n as [| n IH]; intros x; cbn [le_bytes le_value].
  - cbn. rewrite Z.mod_1_r. reflexivity.
  - rewrite IH.
    replace (8 * Z.of_nat (S n)) with (8 + 8 * Z.of_nat n) by lia.
    rewrite Z.pow_add_r by lia. change (2 ^ 8) with 256.
    assert (Hp : 0 < 2 ^ (8 * Z.of_nat n)) by (apply Z.pow_pos_nonneg; lia).
    rewrite (Z.rem_mul_r x 256 (2 ^ (8 * Z.of_nat n))) by lia.
    reflexivity.
Qed.

Lemma be_bytes_length n x : length (be_bytes n x) = n.
Proof. unfold be_bytes. rewrite length_rev. apply le_bytes_length. Qed.

Lemma be_bytes_are_bytes n x : Forall is_byte (be_bytes n x).
Proof.
  unfold be_bytes. apply Forall_forall. intros b Hb.
  apply list_elem_of_In, in_rev, list_elem_of_In in Hb.
  revert b Hb. apply Forall_forall, le_bytes_are_bytes.
Qed.

Lemma be_value_be_bytes n x : be_value (be_bytes n x) = x mod 2 ^ (8 * Z.of_nat n).
Proof. unfold be_value, be_bytes. rewrite rev_involutive. apply le_value_le_bytes. Qed.

Lemma object_bytes_htobe o n x : object_bytes o n (htobe o n x) = be_bytes n x.
Proof.
  destruct o; cbn; [| reflexivity]. unfold bswap.
  rewrite <- (be_bytes_length n x) at 1. fold (be_bytes n x).
  apply le_bytes_le_value, be_bytes_are_bytes.
Qed.

Lemma betoh_object_value o bs :
  Forall is_byte bs -> betoh o (length bs) (object_value o bs) = be_value bs.
Proof.
  intros Hbs. destruct o; cbn; [| reflexivity]. unfold bswap.
  rewrite le_bytes_le_value by exact Hbs. reflexivity.
Qed.

Lemma to_unsigned_8_bytes bs :
  Forall is_byte bs -> map (to_unsigned 8) bs = bs.
Proof.
  induction 1 as [| b bs Hb Hbs IH]; cbn; [reflexivity |].
  rewrite IH. f_equal. apply Z.mod_small. exact Hb.
Qed.

Lemma le_bytes_lookup n : forall x j,
  (j < n)%nat ->
  le_bytes n x !! j = Some ((x / 2 ^ (8 * Z.of_nat j)) mod 256).
Proof.
  induction n as [| n IH]; intros x j Hj; [lia |].
  destruct j as [| j]; cbn [le_bytes].
  - cbn. rewrite Z.div_1_r. reflexivity.
  - change ((x mod 256 :: le_bytes n (x / 256)) !! S j)
      with (le_bytes n (x / 256) !! j).
    rewrite IH by lia. do 2 f_equal.
    assert (Hp : 0 < 2 ^ (8 * Z.of_nat j)) by (apply Z.pow_pos_nonneg; lia).
    rewrite Zdiv_Zdiv by lia. f_equal.
    replace (8 * Z.of_nat (S j)) with (8 + 8 * Z.of_nat j) by lia.
    rewrite Z.pow_add_r by lia. reflexivity.
Qed.

(** The [i]-th byte of the big-endian form is the [i]-th most significant
    byte of the value. *)
Lemma be_bytes_lookup n x i :
  (i < n)%nat ->
  be_bytes n x !! i
  = Some (Z.land (Z.shiftr x (8 * Z.of_nat (n - 1 - i))) 255).
Proof.
  intros Hi. unfold be_bytes. rewrite rev_alt.
  change (rev_append (le_bytes n x) []) with (reverse (le_bytes n x)).
  rewrite reverse_lookup by (rewrite le_bytes_length; lia).
  rewrite le_bytes_length, le_bytes_lookup by lia.
  rewrite land_shiftr_255 by lia.
  replace (n - S i)%nat with (n - 1 - i)%nat by lia. reflexivity.
Qed.

(** *** [to_be]: every implementation stores the big-endian bytes *)

Ltac puts_to_copy :=
  cbn [copy_n_to];
  repeat match goal with
    | |- context [put ?v ?d ≫= _] =>
        destruct (put v d); cbn [mbind option_bind]; [| reflexivity]
    end;
  rewrite ?bind_Some_r; reflexivity.

Ltac byte_arith :=
  unfold to_unsigned;
  rewrite ?land_shiftr_255, ?land_255, ?Z.shiftr_div_pow2 by lia;
  Z.div_mod_to_equations; lia.

Ltac each_byte :=
  repeat match goal with
    | |- cons _ _ = cons _ _ => apply (f_equal2 cons); [byte_arith |]
    end;
  reflexivity.

Lemma be_bytes_2 x :
  [Z.land (Z.shiftr x 8) 255; Z.land x 255] = be_bytes 2 x.
Proof. unfold be_bytes. cbn [le_bytes rev app]. each_byte. Qed.

Lemma be_bytes_4 x :
  [Z.land (Z.shiftr x 24) 255; Z.land (Z.shiftr x 16) 255;
   Z.land (Z.shiftr x 8) 255; Z.land x 255] = be_bytes 4 x.
Proof. unfold be_bytes. cbn [le_bytes rev app]. each_byte. Qed.

Lemma to_be_uint16_bytes p x dst :
  to_be_uint16 p x dst = copy_n_to (be_bytes 2 x) dst.
Proof.
  unfold to_be_uint16. destruct (native16 p).
  - rewrite object_bytes_htobe. reflexivity.
  - rewrite <- be_bytes_2. puts_to_copy.
Qed.

Lemma to_be_uint32_bytes p x dst :
  to_be_uint32 p x dst = copy_n_to (be_bytes 4 x) dst.
Proof.
  unfold to_be_uint32. destruct (native32 p).
  - rewrite object_bytes_htobe. reflexivity.
  - rewrite <- be_bytes_4. puts_to_copy.
Qed.

Lemma be_bytes_8 x :
  [Z.land (Z.shiftr x 56) 255; Z.land (Z.shiftr x 48) 255;
   Z.land (Z.shiftr x 40) 255; Z.land (Z.shiftr x 32) 255;
   Z.land (Z.shiftr x 24) 255; Z.land (Z.shiftr x 16) 255;
   Z.land (Z.shiftr x 8) 255; Z.land x 255] = be_bytes 8 x.
Proof. unfold be_bytes. cbn [le_bytes rev app]. each_byte. Qed.

(** the high and low words of the portable 64-bit code, on a target with
    64-bit words *)
Lemma hi_lo_bytes_64 x :
  let hi := Z.shiftr x 32 in
  let lo := x in
  [Z.land (Z.shiftr hi 24) 255; Z.land (Z.shiftr hi 16) 255;
   Z.land (Z.shiftr hi 8) 255; Z.land hi 255;
   Z.land (Z.shiftr lo 24) 255; Z.land (Z.shiftr lo 16) 255;
   Z.land (Z.shiftr lo 8) 255; Z.land lo 255] = be_bytes 8 x.
Proof.
  cbv zeta. rewrite <- be_bytes_8.
  rewrite !Z.shiftr_shiftr by lia. reflexivity.
Qed.

(** and on a target with 32-bit words *)
Lemma hi_lo_bytes_32 x :
  let hi := to_unsigned 32 (Z.shiftr x 32) in
  let lo := to_unsigned 32 (Z.land x 4294967295) in
  [Z.land (Z.shiftr hi 24) 255; Z.land (Z.shiftr hi 16) 255;
   Z.land (Z.shiftr hi 8) 255; Z.land hi 255;
   Z.land (Z.shiftr lo 24) 255; Z.land (Z.shiftr lo 16) 255;
   Z.land (Z.shiftr lo 8) 255; Z.land lo 255] = be_bytes 8 x.
Proof.
  cbv zeta. rewrite <- be_bytes_8.
  change 4294967295 with (Z.ones 32). rewrite Z.land_ones by lia.
  each_byte.
Qed.

Lemma to_be_uint64_bytes p x dst :
  to_be_uint64 p x dst = copy_n_to (be_bytes 8 x) dst.
Proof.
  unfold to_be_uint64. destruct (native64 p).
  - rewrite object_bytes_htobe. reflexivity.
  - destruct (wordsize p).
    + rewrite <- hi_lo_bytes_32. cbv zeta. puts_to_copy.
    + rewrite <- hi_lo_bytes_64. cbv zeta. puts_to_copy.
Qed.

(** *** Reading through an iterator *)

Lemma holds_cons b bs buf off :
  holds (b :: bs) buf off -> buf !! off = Some b /\ holds bs buf (S off).
Proof.
  intros H. split.
  - rewrite <- (Nat.add_0_r off). apply H. reflexivity.
  - intros i c Hc. replace (S off + i)%nat with (off + S i)%nat by lia.
    apply H. exact Hc.
Qed.

Lemma holds_stored bs buf off :
  (off <= length buf)%nat -> holds bs (stored bs buf off) off.
Proof. intros Hoff i b Hb. apply stored_lookup_inside; assumption. Qed.

Lemma fetch_holds b bs buf off :
  holds (b :: bs) buf off ->
  fetch (ByteIter buf off) = Some (b, ByteIter buf (S off)).
Proof.
  intros H. apply holds_cons in H as [Hb _].
  unfold fetch. cbn. rewrite Hb. reflexivity.
Qed.

Lemma copy_n_from_holds bs : forall buf off,
  holds bs buf off -> copy_n_from (length bs) (ByteIter buf off) = Some bs.
Proof.
  induction bs as [| b bs IH]; intros buf off H; cbn [length copy_n_from].
  - reflexivity.
  - rewrite (fetch_holds b bs) by exact H. cbn.
    apply holds_cons in H as [_ H]. rewrite (IH _ _ H). reflexivity.
Qed.

Ltac fetch_all H :=
  repeat match type of H with
    | holds (?b :: ?bs) ?buf ?off =>
        rewrite (fetch_holds b bs buf off H); cbn [mbind option_bind];
        apply holds_cons in H as [_ H]
    end.

(** *** [from_be]: every implementation reads the big-endian value *)

Lemma shl_byte w k b :
  is_byte b -> 0 <= k -> k + 8 <= w -> shl w (to_unsigned w b) k = b * 2 ^ k.
Proof.
  intros Hb Hk Hw. unfold shl, to_unsigned, is_byte in *.
  assert (H8 : 2 ^ 8 <= 2 ^ w) by (apply Z.pow_le_mono_r; lia).
  change (2 ^ 8) with 256 in H8.
  rewrite (Z.mod_small b) by lia.
  rewrite Z.shiftl_mul_pow2 by lia.
  apply Z.mod_small.
  assert (Hk8 : 2 ^ (k + 8) <= 2 ^ w) by (apply Z.pow_le_mono_r; lia).
  rewrite Z.pow_add_r in Hk8 by lia. change (2 ^ 8) with 256 in Hk8.
  assert (0 < 2 ^ k) by (apply Z.pow_pos_nonneg; lia). nia.
Qed.

Lemma lor_4_bytes b0 b1 b2 b3 :
  is_byte b0 -> is_byte b1 -> is_byte b2 -> is_byte b3 ->
  Z.lor (Z.lor (Z.lor (b0 * 2 ^ 24) (b1 * 2 ^ 16)) (b2 * 2 ^ 8)) b3
  = b0 * 2 ^ 24 + b1 * 2 ^ 16 + b2 * 2 ^ 8 + b3.
Proof.
  unfold is_byte. intros H0 H1 H2 H3.
  rewrite (lor_add (b0 * 2 ^ 24) (b1 * 2 ^ 16) 24)
    by (try (Z.div_mod_to_equations; lia); lia).
  rewrite (lor_add (b0 * 2 ^ 24 + b1 * 2 ^ 16) (b2 * 2 ^ 8) 16)
    by (try (Z.div_mod_to_equations; lia); lia).
  rewrite (lor_add (b0 * 2 ^ 24 + b1 * 2 ^ 16 + b2 * 2 ^ 8) b3 8)
    by (try (Z.div_mod_to_equations; lia); lia).
  reflexivity.
Qed.

Lemma from_be_uint16_value p bs buf off :
  length bs = 2%nat -> Forall is_byte bs -> holds bs buf off ->
  from_be_uint16 p (ByteIter buf off) = Some (be_value bs).
Proof.
  intros Hlen Hbs H. unfold from_be_uint16. destruct (native16 p).
  - rewrite <- Hlen, (copy_n_from_holds bs buf off H). cbn [mbind option_bind].
    rewrite betoh_object_value by exact Hbs. reflexivity.
  - destruct bs as [| b0 [| b1 [| ? ?]]]; try discriminate.
    apply Forall_cons in Hbs as [H0 Hbs]. apply Forall_cons in Hbs as [H1 _].
    fetch_all H. f_equal. unfold be_value. cbn [rev app le_value].
    unfold is_byte in *. unfold to_unsigned.
    rewrite (Z.mod_small b0), (Z.mod_small b1) by lia.
    rewrite Z.shiftl_mul_pow2 by lia.
    rewrite (lor_add (b0 * 2 ^ 8) b1 8)
      by (try (Z.div_mod_to_equations; lia); lia).
    rewrite Z.mod_small by lia. lia.
Qed.

Lemma from_be_uint32_value p bs buf off :
  length bs = 4%nat -> Forall is_byte bs -> holds bs buf off ->
  from_be_uint32 p (ByteIter buf off) = Some (be_value bs).
Proof.
  intros Hlen Hbs H. unfold from_be_uint32. destruct (native32 p).
  - rewrite <- Hlen, (copy_n_from_holds bs buf off H). cbn [mbind option_bind].
    rewrite betoh_object_value by exact Hbs. reflexivity.
  - destruct bs as [| b0 [| b1 [| b2 [| b3 [| ? ?]]]]]; try discriminate.
    repeat (apply Forall_cons in Hbs as [? Hbs]).
    fetch_all H. f_equal. unfold be_value. cbn [rev app le_value].
    rewrite !shl_byte by (assumption || lia).
    rewrite (to_unsigned_small 32 b3) by (unfold unsigned_range, is_byte in *; lia).
    rewrite lor_4_bytes by assumption. lia.
Qed.

Ltac side := try (Z.div_mod_to_equations; lia); lia.

Ltac shl_bytes :=
  repeat match goal with
    | |- context [shl ?w (to_unsigned ?w ?b) ?k] =>
        is_var b; rewrite (shl_byte w k b) by (assumption || lia)
    end.

Lemma from_be_uint64_value p bs buf off :
  length bs = 8%nat -> Forall is_byte bs -> holds bs buf off ->
  from_be_uint64 p (ByteIter buf off) = Some (be_value bs).
Proof.
  intros Hlen Hbs H. unfold from_be_uint64. destruct (native64 p).
  - rewrite <- Hlen, (copy_n_from_holds bs buf off H). cbn [mbind option_bind].
    rewrite betoh_object_value by exact Hbs. reflexivity.
  - destruct bs as [| b0 [| b1 [| b2 [| b3 [| b4 [| b5 [| b6 [| b7 [| ? ?]]]]]]]]];
      try discriminate.
    repeat (apply Forall_cons in Hbs as [? Hbs]).
    fetch_all H. unfold be_value. cbn [rev app le_value].
    destruct (wordsize p); f_equal.
    + shl_bytes.
      rewrite (to_unsigned_small 32 b3), (to_unsigned_small 32 b7)
        by (unfold unsigned_range, is_byte in *; lia).
      rewrite !lor_4_bytes by assumption.
      unfold is_byte in *. unfold shl, to_unsigned.
      rewrite (Z.mod_small (_ + b3)), (Z.mod_small (_ + b7)) by lia.
      rewrite Z.shiftl_mul_pow2 by lia.
      rewrite Z.mod_small by lia.
      rewrite (lor_add _ _ 32) by side. lia.
    + shl_bytes.
      rewrite (to_unsigned_small 64 b3), (to_unsigned_small 64 b7)
        by (unfold unsigned_range, is_byte in *; lia).
      rewrite lor_4_bytes by assumption.
      unfold is_byte in *. unfold shl, to_unsigned.
      rewrite Z.shiftl_mul_pow2 by lia.
      rewrite Z.mod_small by lia.
      rewrite (lor_add (_ * 2 ^ 32) (b4 * 2 ^ 24) 32) by side.
      rewrite (lor_add (_ + b4 * 2 ^ 24) (b5 * 2 ^ 16) 24) by side.
      rewrite (lor_add (_ + b5 * 2 ^ 16) (b6 * 2 ^ 8) 16) by side.
      rewrite (lor_add (_ + b6 * 2 ^ 8) b7 8) by side.
      lia.
Qed.

(** *** Integer and floating-point conversions *)

Lemma float_to_bits_range ew fw f :
  0 <= ew -> 0 <= fw -> ieee754_range ew fw f ->
  unsigned_range (1 + ew + fw) (float_to_bits ew fw f).
Proof.
  intros Hew Hfw [He Hf]. unfold unsigned_range, float_to_bits.
  replace (1 + ew + fw) with (1 + (ew + fw)) by lia.
  rewrite !Z.pow_add_r by lia. change (2 ^ 1) with 2.
  assert (0 < 2 ^ ew) by (apply Z.pow_pos_nonneg; lia).
  assert (0 < 2 ^ fw) by (apply Z.pow_pos_nonneg; lia).
  destruct (sign f); cbn [Z.b2z]; nia.
Qed.

Lemma bits_to_float_to_bits ew fw f :
  0 <= ew -> 0 <= fw -> ieee754_range ew fw f ->
  bits_to_float ew fw (float_to_bits ew fw f) = f.
Proof.
  intros Hew Hfw [He Hf]. unfold bits_to_float, float_to_bits.
  rewrite Z.pow_add_r by lia.
  assert (Pe : 0 < 2 ^ ew) by (apply Z.pow_pos_nonneg; lia).
  assert (Pf : 0 < 2 ^ fw) by (apply Z.pow_pos_nonneg; lia).
  set (s := Z.b2z (sign f)).
  set (e := biased_exponent f) in *. set (m := fraction f) in *.
  set (E := 2 ^ ew) in *. set (F := 2 ^ fw) in *.
  assert (Hs : 0 <= s <= 1) by (subst s; destruct (sign f); cbn; lia).
  assert (H1 : (s * (E * F) + e * F + m) / (E * F) = s).
  { symmetry. apply (Z.div_unique_pos _ _ _ (e * F + m)); nia. }
  assert (H2 : (s * (E * F) + e * F + m) / F = s * E + e).
  { symmetry. apply (Z.div_unique_pos _ _ _ m); nia. }
  assert (H3 : (s * (E * F) + e * F + m) mod F = m).
  { symmetry. apply (Z.mod_unique_pos _ _ (s * E + e)); nia. }
  assert (H4 : (s * E + e) mod E = e).
  { symmetry. apply (Z.mod_unique_pos _ _ s); nia. }
  rewrite H1, H2, H3, H4.
  destruct f as [sg ex fr]. subst s e m. cbn. f_equal.
  destruct sg; reflexivity.
Qed.

(** *** Writing a word and reading it back *)

Lemma stored_be_bytes_holds n w buf off :
  (off + n <= length buf)%nat ->
  holds (be_bytes n w) (stored (be_bytes n w) buf off) off.
Proof. intros H. apply holds_stored. lia. Qed.

Lemma copy_be_bytes n w buf off :
  (off + n <= length buf)%nat ->
  copy_n_to (be_bytes n w) (ByteIter buf off)
  = Some (ByteIter (stored (be_bytes n w) buf off) (off + n)).
Proof.
  intros H.
  rewrite copy_n_to_stored by (rewrite be_bytes_length; exact H).
  rewrite to_unsigned_8_bytes by apply be_bytes_are_bytes.
  rewrite be_bytes_length. reflexivity.
Qed.

Lemma to_be_uint16_stored p w buf off :
  (off + 2 <= length buf)%nat ->
  to_be_uint16 p w (ByteIter buf off)
  = Some (ByteIter (stored (be_bytes 2 w) buf off) (off + 2)).
Proof. intros H. rewrite to_be_uint16_bytes. apply copy_be_bytes, H. Qed.

Lemma to_be_uint32_stored p w buf off :
  (off + 4 <= length buf)%nat ->
  to_be_uint32 p w (ByteIter buf off)
  = Some (ByteIter (stored (be_bytes 4 w) buf off) (off + 4)).
Proof. intros H. rewrite to_be_uint32_bytes. apply copy_be_bytes, H. Qed.

Lemma to_be_uint64_stored p w buf off :
  (off + 8 <= length buf)%nat ->
  to_be_uint64 p w (ByteIter buf off)
  = Some (ByteIter (stored (be_bytes 8 w) buf off) (off + 8)).
Proof. intros H. rewrite to_be_uint64_bytes. apply copy_be_bytes, H. Qed.

Lemma from_be_uint16_stored q w buf off :
  (off + 2 <= length buf)%nat ->
  from_be_uint16 q (ByteIter (stored (be_bytes 2 w) buf off) off)
  = Some (to_unsigned 16 w).
Proof.
  intros H. rewrite (from_be_uint16_value q (be_bytes 2 w)).
  - rewrite be_value_be_bytes. reflexivity.
  - apply be_bytes_length.
  - apply be_bytes_are_bytes.
  - apply stored_be_bytes_holds, H.
Qed.

Lemma from_be_uint32_stored q w buf off :
  (off + 4 <= length buf)%nat ->
  from_be_uint32 q (ByteIter (stored (be_bytes 4 w) buf off) off)
  = Some (to_unsigned 32 w).
Proof.
  intros H. rewrite (from_be_uint32_value q (be_bytes 4 w)).
  - rewrite be_value_be_bytes. reflexivity.
  - apply be_bytes_length.
  - apply be_bytes_are_bytes.
  - apply stored_be_bytes_holds, H.
Qed.

Lemma from_be_uint64_stored q w buf off :
  (off + 8 <= length buf)%nat ->
  from_be_uint64 q (ByteIter (stored (be_bytes 8 w) buf off) off)
  = Some (to_unsigned 64 w).
Proof.
  intros H. rewrite (from_be_uint64_value q (be_bytes 8 w)).
  - rewrite be_value_be_bytes. reflexivity.
  - apply be_bytes_length.
  - apply be_bytes_are_bytes.
  - apply stored_be_bytes_holds, H.
Qed.

(** Whatever implementation is selected, [to_be] stores the big-endian
    bytes of the scalar's word at the iterator and advances it past them. *)
Lemma to_be_stored p x buf off :
  (off + sizeof (type_of x) <= length buf)%nat ->
  to_be p x (ByteIter buf off)
  = Some (ByteIter (stored (be_bytes (sizeof (type_of x)) (wire_word x)) buf off)
                   (off + sizeof (type_of x))).
Proof.
  intros H. destruct x as [[] v | f | f]; cbn [to_be type_of sizeof int_bytes wire_word] in *;
    first [apply to_be_uint16_stored | apply to_be_uint32_stored
          | apply to_be_uint64_stored]; exact H.
Qed.

(** Reading with any implementation what any implementation has stored
    gives the scalar back. *)
Lemma from_be_stored q x buf off :
  representable x ->
  (off + sizeof (type_of x) <= length buf)%nat ->
  from_be q (type_of x)
    (ByteIter (stored (be_bytes (sizeof (type_of x)) (wire_word x)) buf off) off)
  = Some x.
Proof.
  intros Hx H.
  destruct x as [[] v | f | f];
    cbn [from_be type_of sizeof int_bytes wire_word representable int_range] in *;
    first [rewrite from_be_uint16_stored by exact H
          | rewrite from_be_uint32_stored by exact H
          | rewrite from_be_uint64_stored by exact H];
    cbn [fmap option_fmap option_map]; f_equal; f_equal.
  - apply to_unsigned_small, Hx.
  - rewrite <- (to_signed_to_unsigned 16 v) at 2 by (exact Hx || lia).
    f_equal. unfold to_unsigned. apply Z.mod_mod. lia.
  - apply to_unsigned_small, Hx.
  - rewrite <- (to_signed_to_unsigned 32 v) at 2 by (exact Hx || lia).
    f_equal. unfold to_unsigned. apply Z.mod_mod. lia.
  - apply to_unsigned_small, Hx.
  - rewrite <- (to_signed_to_unsigned 64 v) at 2 by (exact Hx || lia).
    f_equal. unfold to_unsigned. apply Z.mod_mod. lia.
  - rewrite to_unsigned_small
      by (apply (float_to_bits_range 8 23); [lia | lia | exact Hx]).
    apply bits_to_float_to_bits; [lia | lia | exact Hx].
  - rewrite to_unsigned_small
      by (apply (float_to_bits_range 11 52); [lia | lia | exact Hx]).
    apply bits_to_float_to_bits; [lia | lia | exact Hx].
Qed.

(** The same across two targets and at any offset of a larger buffer: what
    one implementation writes, every implementation reads back. *)
Lemma to_be_from_be_across p q x buf off :
  representable x ->
  (off + sizeof (type_of x) <= length buf)%nat ->
  exists dst,
    to_be p x (ByteIter buf off) = Some dst
    /\ it_pos dst = (off + sizeof (type_of x))%nat
    /\ from_be q (type_of x) (ByteIter (it_buf dst) off) = Some x.
Proof.
  intros Hx H. eexists. split; [apply to_be_stored, H |].
  split; [reflexivity |]. cbn [it_buf]. apply from_be_stored; assumption.
Qed.

(** *** The codec's contract *)

(** C1.  For every supported scalar type and every representable value [x]
    of it, on every build target: [to_be] writes [x] into a buffer of
    [sizeof(T)] bytes without leaving it, and [from_be<T>] on that buffer
    returns exactly [x]. *)
Theorem to_be_from_be_identity p x buf :
  representable x ->
  length buf = sizeof (type_of x) ->
  exists dst,
    to_be p x (ByteIter buf 0) = Some dst
    /\ from_be p (type_of x) (ByteIter (it_buf dst) 0) = Some x.
Proof.
  intros Hx Hlen.
  destruct (to_be_from_be_across p p x buf 0 Hx) as (dst & Hw & _ & Hr).
  - rewrite Hlen. reflexivity.
  - exists dst. split; assumption.
Qed.

Lemma to_be_from_be_identity_witness :
  let p := linux_amd64 in
  let x := s_double (IEEE true 1023 (2 ^ 51)) in
  let buf := [0; 0; 0; 0; 0; 0; 0; 0] in
  representable x
  /\ length buf = sizeof (type_of x)
  /\ exists dst,
       to_be p x (ByteIter buf 0) = Some dst
       /\ from_be p (type_of x) (ByteIter (it_buf dst) 0) = Some x.
Proof.
  cbv zeta.
  assert (Hx : representable (s_double (IEEE true 1023 (2 ^ 51)))).
  { cbn. unfold ieee754_range. cbn. lia. }
  split; [exact Hx |]. split; [reflexivity |].
  apply to_be_from_be_identity; [exact Hx | reflexivity].
Defined.

(** C7.  For every fixed-width integer type and value [x] of it, on every
    build target, [to_be(x, dst)] writes exactly [sizeof(x)] bytes: the byte
    at offset [i] from [dst] is [(x >> (8 * (sizeof(x) - 1 - i))) & 0xFF] for
    every [i] below [sizeof(x)], the iterator ends [sizeof(x)] bytes further,
    and every other byte of the buffer is as it was. *)
Theorem to_be_writes_big_endian p t x buf off :
  int_range t x ->
  (off + int_bytes t <= length buf)%nat ->
  exists dst,
    to_be p (s_int t x) (ByteIter buf off) = Some dst
    /\ it_pos dst = (off + int_bytes t)%nat
    /\ length (it_buf dst) = length buf
    /\ (forall i, (i < int_bytes t)%nat ->
          it_buf dst !! (off + i)%nat
          = Some (Z.land (Z.shiftr x (8 * Z.of_nat (int_bytes t - 1 - i))) 255))
    /\ (forall j, (j < off \/ off + int_bytes t <= j)%nat ->
          it_buf dst !! j = buf !! j).
Proof.
  intros _ H. eexists. split; [apply (to_be_stored p (s_int t x)), H |].
  cbn [it_pos it_buf type_of sizeof]. split; [reflexivity |].
  split; [| split].
  - apply length_stored. rewrite be_bytes_length. exact H.
  - intros i Hi. apply stored_lookup_inside; [lia |].
    rewrite be_bytes_lookup by exact Hi. f_equal.
    destruct t; cbn [wire_word int_bytes]; try reflexivity;
      apply land_shiftr_to_unsigned; cbn [int_bytes] in Hi; lia.
  - intros j Hj. apply stored_lookup_outside; rewrite be_bytes_length; assumption.
Qed.

Lemma to_be_writes_big_endian_witness :
  let p := portable_be32 in
  let buf := [17; 34; 51; 68; 85; 102] in
  int_range int32_t (-2)
  /\ (1 + int_bytes int32_t <= length buf)%nat
  /\ exists dst,
       to_be p (s_int int32_t (-2)) (ByteIter buf 1) = Some dst
       /\ it_pos dst = (1 + int_bytes int32_t)%nat
       /\ length (it_buf dst) = length buf
       /\ (forall i, (i < int_bytes int32_t)%nat ->
             it_buf dst !! (1 + i)%nat
             = Some (Z.land (Z.shiftr (-2)
                              (8 * Z.of_nat (int_bytes int32_t - 1 - i))) 255))
       /\ (forall j, (j < 1 \/ 1 + int_bytes int32_t <= j)%nat ->
             it_buf dst !! j = buf !! j).
Proof.
  cbv zeta.
  assert (Hx : int_range int32_t (-2)) by (cbn; unfold signed_range; lia).
  assert (Hb : (1 + int_bytes int32_t <= length [17; 34; 51; 68; 85; 102])%nat)
    by (cbn; lia).
  split; [exact Hx |]. split; [exact Hb |].
  apply to_be_writes_big_endian; [exact Hx | exact Hb].
Defined.

Lemma holds_self bs : holds bs bs 0.
Proof. intros i b H. exact H. Qed.

(** [from_be<T>] on a buffer of [sizeof(T)] bytes is the value of the bytes
    read most significant first, converted to [T]. *)
Lemma from_be_value q T bs :
  length bs = sizeof T -> Forall is_byte bs ->
  from_be q T (ByteIter bs 0) = Some (scalar_of_word T (be_value bs)).
Proof.
  intros Hlen Hbs.
  destruct T as [[] | |]; cbn [from_be sizeof int_bytes scalar_of_word] in *;
    first [rewrite (from_be_uint16_value q bs bs 0 Hlen Hbs (holds_self bs))
          | rewrite (from_be_uint32_value q bs bs 0 Hlen Hbs (holds_self bs))
          | rewrite (from_be_uint64_value q bs bs 0 Hlen Hbs (holds_self bs))];
    reflexivity.
Qed.

End EndianFacts.

(** ** Facts about the message *)

Module MessageFacts.
Import CInt CIntFacts Endian Wire EndianFacts Message.

(** *** Indexed access *)

Lemma at_index_lookup {A} (c : list A) i a :
  c !! i = Some a -> at_index c i = Returns a.
Proof. intros H. unfold at_index. rewrite H. reflexivity. Qed.

Lemma size_in_range m part f :
  _parts m !! part = Some f -> size m part = Returns (frame_size f).
Proof.
  intros H. unfold size.
  rewrite decide_False by (apply lookup_lt_Some in H; lia).
  rewrite (at_index_lookup _ _ _ H). reflexivity.
Qed.

Lemma raw_data_in_range m part f :
  _parts m !! part = Some f -> raw_data m part = Returns (frame_bytes f).
Proof.
  intros H. unfold raw_data.
  rewrite decide_False by (apply lookup_lt_Some in H; lia).
  rewrite (at_index_lookup _ _ _ H). reflexivity.
Qed.

Lemma size_out_of_range m part :
  (length (_parts m) <= part)%nat -> size m part = Throws part_out_of_range.
Proof. intros H. unfold size. rewrite decide_True by exact H. reflexivity. Qed.

Lemma raw_data_out_of_range m part :
  (length (_parts m) <= part)%nat -> raw_data m part = Throws part_out_of_range.
Proof. intros H. unfold raw_data. rewrite decide_True by exact H. reflexivity. Qed.

Lemma raw_msg_out_of_range m part :
  (length (_parts m) <= part)%nat -> raw_msg m part = Throws part_out_of_range.
Proof. intros H. unfold raw_msg. rewrite decide_True by exact H. reflexivity. Qed.

(** *** Asserts *)

Lemma assert_holds p e : e = Returns true -> assert p e = Returns tt.
Proof. intros ->. unfold assert. destruct (ndebug p); reflexivity. Qed.

Lemma assert_compiled_out p e : ndebug p = true -> assert p e = Returns tt.
Proof. intros H. unfold assert. rewrite H. reflexivity. Qed.

Lemma assert_fails p e :
  ndebug p = false -> e = Returns false -> assert p e = Aborts.
Proof. intros H ->. unfold assert. rewrite H. reflexivity. Qed.

Lemma get_out_of_range p T m part :
  supported T ->
  (length (_parts m) <= part)%nat -> get p T m part = Throws part_out_of_range.
Proof.
  intros HT H. unfold supported in HT.
  destruct T; try congruence;
    unfold get, get_int64, get_scalar, get_byte, assert;
    rewrite ?size_out_of_range, ?raw_data_out_of_range by exact H;
    destruct (ndebug p); reflexivity.
Qed.

Lemma remove_out_of_range m part :
  (length (_parts m) <= part)%nat -> remove part m = Undefined.
Proof. intros H. unfold remove. rewrite decide_False by lia. reflexivity. Qed.

Lemma sent_out_of_range p m part :
  (length (_parts m) <= part)%nat -> sent p part m = Undefined.
Proof.
  intros H. unfold sent, assert, at_index.
  rewrite (lookup_ge_None_2 _ _ H). destruct (ndebug p); reflexivity.
Qed.

(** C8, as the code has it.  [size], [get<T>] for a supported [T],
    [raw_data] and [raw_msg] check the index and throw the out-of-range
    exception to their caller when it is not below [parts()]; [remove] and
    [sent] make no check, and an index not below [parts()] is undefined
    behaviour there, with the asserts compiled or not. *)
Theorem out_of_range_access p T m part :
  supported T ->
  parts m <= Z.of_nat part ->
  size m part = Throws part_out_of_range
  /\ get p T m part = Throws part_out_of_range
  /\ raw_data m part = Throws part_out_of_range
  /\ raw_msg m part = Throws part_out_of_range
  /\ remove part m = Undefined
  /\ sent p part m = Undefined.
Proof.
  intros HT H. unfold parts in H.
  assert (Hn : (length (_parts m) <= part)%nat) by lia.
  repeat split.
  - apply size_out_of_range, Hn.
  - apply get_out_of_range; assumption.
  - apply raw_data_out_of_range, Hn.
  - apply raw_msg_out_of_range, Hn.
  - apply remove_out_of_range, Hn.
  - apply sent_out_of_range, Hn.
Qed.

Lemma out_of_range_access_witness :
  let m := Message [frame_of_bytes [104; 105]] 0 in
  supported g_string
  /\ parts m <= Z.of_nat 1
  /\ size m 1 = Throws part_out_of_range
  /\ get linux_amd64 g_string m 1 = Throws part_out_of_range
  /\ raw_data m 1 = Throws part_out_of_range
  /\ raw_msg m 1 = Throws part_out_of_range
  /\ remove 1 m = Undefined
  /\ sent linux_amd64 1 m = Undefined.
Proof.
  cbv zeta.
  assert (HT : supported g_string) by (unfold supported; discriminate).
  assert (H : parts (Message [frame_of_bytes [104; 105]] 0) <= Z.of_nat 1)
    by (unfold parts; cbn [_parts length]; lia).
  split; [exact HT |]. split; [exact H |].
  apply out_of_range_access; [exact HT | exact H].
Defined.

(** C8 as stated fails: on the empty message [remove(0)] raises nothing, and
    neither does [sent(0)], on any build. *)
Lemma remove_past_the_end_does_not_throw :
  (0 <= Z.of_nat 0 < parts empty_message -> False)
  /\ remove 0 empty_message <> Throws part_out_of_range
  /\ (forall p, sent p 0 empty_message <> Throws part_out_of_range).
Proof.
  unfold parts. cbn [_parts length empty_message].
  split; [lia |]. split; [discriminate |].
  intros p. rewrite sent_out_of_range by (cbn; lia). discriminate.
Qed.

(** *** Removing a frame *)

(** C9.  In a message of [k >= 1] parts, [remove(i)] for [i < k] returns
    with [k - 1] parts: the frames before [i] keep their index, every frame
    after [i] moves down by one, each of them the frame it was; the read
    cursor is not touched. *)
Theorem remove_shifts_later_frames m i :
  0 <= Z.of_nat i < parts m ->
  exists m',
    remove i m = Returns m'
    /\ parts m' = parts m - 1
    /\ (forall j, (j < i)%nat -> _parts m' !! j = _parts m !! j)
    /\ (forall j, (i <= j)%nat -> _parts m' !! j = _parts m !! S j)
    /\ _read_cursor m' = _read_cursor m.
Proof.
  intros Hi. unfold parts in *.
  assert (Hn : (i < length (_parts m))%nat) by lia.
  eexists. split; [unfold remove; rewrite decide_True by exact Hn; reflexivity |].
  cbn [_parts _read_cursor]. repeat split.
  - rewrite length_delete by (apply lookup_lt_is_Some_2; exact Hn). lia.
  - intros j Hj. apply list_lookup_delete_lt, Hj.
  - intros j Hj. apply list_lookup_delete_ge, Hj.
Qed.

Lemma remove_shifts_later_frames_witness :
  let a := frame_of_bytes [1] in
  let b := frame_of_bytes [2; 2] in
  let c := frame_of_bytes [3; 3; 3] in
  let m := Message [a; b; c] 0 in
  0 <= Z.of_nat 1 < parts m
  /\ exists m',
       remove 1 m = Returns m'
       /\ parts m' = parts m - 1
       /\ (forall j, (j < 1)%nat -> _parts m' !! j = _parts m !! j)
       /\ (forall j, (1 <= j)%nat -> _parts m' !! j = _parts m !! S j)
       /\ _read_cursor m' = _read_cursor m.
Proof.
  cbv zeta.
  assert (H : 0 <= Z.of_nat 1
              < parts (Message [frame_of_bytes [1]; frame_of_bytes [2; 2];
                                frame_of_bytes [3; 3; 3]] 0)) by (unfold parts; cbn [_parts length]; lia).
  split; [exact H |]. apply remove_shifts_later_frames. exact H.
Defined.

(** *** Move construction and move assignment *)

(** C2 as stated fails: after move-assigning into a destination that holds
    a frame, the source holds that frame, not zero parts. *)
Lemma move_assign_source_not_emptied :
  let d := Message [frame_of_bytes [98; 108; 97; 104]] 0 in
  let m := Message [frame_of_bytes [115; 116; 114]] 0 in
  ~ (parts (snd (move_assign d m)) = 0
     /\ read_cursor (snd (move_assign d m)) = 0
     /\ fst (move_assign d m) = m).
Proof. cbn. intros (H & _). discriminate H. Qed.

(** C2, as the code has it.  Move assignment exchanges the two states after
    resetting the destination's cursor: the destination holds exactly the
    frames and cursor the source held, the source holds the frames the
    destination held, with cursor 0.  Move construction leaves the
    destination with exactly the frames and cursor the source held and the
    source with zero parts. *)
Theorem move_transfers_state d m indeterminate :
  (fst (move_assign d m) = m
   /\ _parts (snd (move_assign d m)) = _parts d
   /\ read_cursor (snd (move_assign d m)) = 0)
  /\ (fst (move_construct indeterminate m) = m
      /\ parts (snd (move_construct indeterminate m)) = 0).
Proof. destruct m as [ps c]. cbn. repeat split. Qed.

(** *** Inserting strings *)

Lemma strlen_terminated s : forall rest,
  Forall (fun b => b <> 0) s -> strlen (s ++ 0 :: rest) = Some (length s).
Proof.
  induction s as [| b s IH]; intros rest Hs; cbn [app strlen length].
  - reflexivity.
  - apply Forall_cons in Hs as [Hb Hs].
    destruct (Z.eqb_spec b 0) as [-> | _]; [congruence |].
    rewrite (IH rest Hs). reflexivity.
Qed.

(** Inserting a C string appends one frame holding the bytes before the
    terminator. *)
Lemma insert_c_string_appends p s rest m :
  Forall (fun b => b <> 0) s ->
  stream_insert p (i_c_string (s ++ 0 :: rest)) m
  = Returns (emplace_back (frame_of_bytes s) m).
Proof.
  intros Hs. cbn [stream_insert]. unfold insert_c_string.
  rewrite (strlen_terminated s rest Hs). cbn. unfold add_raw.
  rewrite decide_True by (rewrite length_app; lia).
  rewrite take_app_length. reflexivity.
Qed.

(** Inserting a [std::string] goes through [c_str()] and [strlen]: the frame
    holds the whole string when no byte of it is NUL. *)
Lemma insert_string_without_nul p s m :
  Forall (fun b => b <> 0) s ->
  stream_insert p (i_string s) m = Returns (emplace_back (frame_of_bytes s) m).
Proof. intros Hs. apply (insert_c_string_appends p s [] m Hs). Qed.

(** and only the bytes before the first NUL otherwise *)
Lemma insert_string_with_nul p s t m :
  Forall (fun b => b <> 0) s ->
  stream_insert p (i_string (s ++ 0 :: t)) m
  = Returns (emplace_back (frame_of_bytes s) m).
Proof.
  intros Hs. cbn [stream_insert]. unfold c_str. rewrite <- app_assoc.
  apply (insert_c_string_appends p s (t ++ [0]) m Hs).
Qed.

(** [push_front(std::string const&)] passes [size()] and keeps every byte. *)
Lemma push_front_string_keeps_all s m :
  push_front_string s m = Returns (emplace_front (frame_of_bytes s) m).
Proof.
  unfold push_front_string, push_front, c_str.
  rewrite decide_True by (rewrite length_app; lia).
  rewrite take_app_length. reflexivity.
Qed.

(** C3, at the string of the three bytes 'a', NUL, 'b'.  Stream insertion
    appends a frame of one byte, not of the string's [size()] of three;
    [push_front] of the same string makes a frame of all three. *)
Theorem insert_string_stops_at_nul p :
  let s := [97; 0; 98] in
  stream_insert p (i_string s) empty_message
  = Returns (Message [frame_of_bytes [97]] 0)
  /\ (forall m f, stream_insert p (i_string s) empty_message = Returns m ->
                 _parts m !! 0%nat = Some f ->
                 frame_size f = 1%nat /\ frame_size f <> length s)
  /\ push_front_string s empty_message
     = Returns (Message [frame_of_bytes s] 0).
Proof.
  cbv zeta. split; [reflexivity |]. split; [| reflexivity].
  intros m f Hm Hf. cbv in Hm. injection Hm as <-. cbn in Hf.
  injection Hf as <-. cbn. split; [reflexivity | discriminate].
Qed.

(** *** Typed access to a frame that is there *)

Ltac in_range H :=
  rewrite ?(size_in_range _ _ _ H), ?(raw_data_in_range _ _ _ H);
  cbn [mbind outcome_bind fmap outcome_fmap].

(** [get<T>(part)] depends on the message through the frame at [part]
    alone. *)
Lemma get_frame p T m part f :
  _parts m !! part = Some f -> get p T m part = get p T (Message [f] 0) 0.
Proof.
  intros H. assert (H0 : _parts (Message [f] 0) !! 0%nat = Some f) by reflexivity.
  destruct T; unfold get, get_int64, get_scalar, get_byte, assert;
    in_range H; in_range H0; reflexivity.
Qed.

Ltac outcome_cases :=
  repeat match goal with
    | |- context [ndebug ?p] => destruct (ndebug p); cbn
    | |- context [bool_decide ?P] => destruct (bool_decide P); cbn
    | |- context [defined ?o] => destruct o; cbn
    | |- context [at_index ?c ?i] => unfold at_index; destruct (c !! i); cbn
    | |- context [match ?x with s_int _ _ => _ | _ => _ end] => destruct x; cbn
    end.

(** With the frame there, [get<T>] does not throw the out-of-range
    exception. *)
Lemma get_in_range_no_range_error p T m part f :
  _parts m !! part = Some f -> get p T m part <> Throws part_out_of_range.
Proof.
  intros H.
  destruct T; unfold get, get_int64, get_scalar, get_byte, assert;
    in_range H; outcome_cases; discriminate.
Qed.

(** [get<T>] of a frame of [sizeof(T)] bytes is the big-endian value of its
    content. *)
Lemma get_scalar_value p T m part f :
  _parts m !! part = Some f ->
  frame_size f = sizeof T ->
  Forall is_byte (frame_bytes f) ->
  get_scalar p T m part
  = Returns (scalar_of_word T (be_value (frame_bytes f))).
Proof.
  intros H Hsize Hbytes. unfold get_scalar. in_range H.
  rewrite bool_decide_eq_true_2 by (symmetry; exact Hsize).
  rewrite assert_holds by reflexivity. cbn [mbind outcome_bind].
  rewrite (from_be_value p T (frame_bytes f) Hsize Hbytes). reflexivity.
Qed.

(** *** Stream extraction *)

Lemma size_t_small x : 0 <= x < 2 ^ 64 -> size_t x = x.
Proof. intros H. unfold size_t. apply to_unsigned_small, H. Qed.

(** A byte as a signed 8-bit integer. *)
Lemma to_signed_byte b :
  is_byte b -> to_signed 8 b = if 128 <=? b then b - 256 else b.
Proof.
  intros Hb. unfold is_byte in Hb. unfold to_signed.
  rewrite Z.mod_small by lia. change (2 ^ (8 - 1)) with 128.
  change (2 ^ 8) with 256.
  destruct (Z.ltb_spec b 128), (Z.leb_spec 128 b); lia.
Qed.

Ltac scalar_case Hf Hb Hv :=
  let Hl := fresh "Hl" in
  match type of Hv with
  | context [decide ?P] => destruct (decide P) as [Hl |]; [| discriminate Hv]
  end;
  cbn [fmap option_fmap option_map] in Hv; injection Hv as <-;
  rewrite (get_scalar_value _ _ _ _ _ Hf Hl Hb); reflexivity.

Ltac byte_case Hf Hb Hv :=
  unfold get_byte; in_range Hf; unfold frame_size;
  destruct (frame_bytes _) as [| b [| ? ?]];
  cbn [fmap option_fmap option_map] in Hv; try discriminate Hv;
  injection Hv as <-; apply Forall_cons in Hb as [Hb _];
  rewrite assert_holds by reflexivity;
  cbn [mbind outcome_bind fmap outcome_fmap at_index lookup list_lookup].

(** [get<T>] of a frame returns the decoding of its content, whenever the
    content has one. *)
Lemma get_decodes p T m part f v :
  _parts m !! part = Some f ->
  Forall is_byte (frame_bytes f) ->
  spec_decode p T (frame_bytes f) = Some v ->
  get p T m part = Returns v.
Proof.
  intros Hf Hb Hv.
  destruct T; cbn [spec_decode get] in *; unfold get_int64.
  - injection Hv as <-. in_range Hf. unfold frame_size. rewrite firstn_all.
    reflexivity.
  - byte_case Hf Hb Hv. unfold char_of_byte.
    rewrite (to_signed_byte _ Hb). reflexivity.
  - byte_case Hf Hb Hv. unfold char_of_byte.
    rewrite (to_signed_byte _ Hb). reflexivity.
  - scalar_case Hf Hb Hv.
  - scalar_case Hf Hb Hv.
  - scalar_case Hf Hb Hv.
  - scalar_case Hf Hb Hv.
  - byte_case Hf Hb Hv. rewrite (to_signed_byte _ Hb). reflexivity.
  - scalar_case Hf Hb Hv.
  - destruct (decide _) as [Hl |]; [| discriminate Hv]. injection Hv as <-.
    rewrite (get_scalar_value p (t_int int64_t) m part f Hf Hl Hb). reflexivity.
  - byte_case Hf Hb Hv. reflexivity.
  - scalar_case Hf Hb Hv.
  - scalar_case Hf Hb Hv.
  - scalar_case Hf Hb Hv.
  - byte_case Hf Hb Hv. unfold is_byte in Hb. do 2 f_equal.
    destruct (Z.ltb_spec 0 b), (Z.eqb_spec b 0); (reflexivity || lia).
  - injection Hv as <-. in_range Hf. reflexivity.
  - discriminate Hv.
Qed.

(** A content of the width of the type has a decoding. *)
Lemma fits_decodes p T content :
  fits T content -> is_Some (spec_decode p T content).
Proof.
  intros H. destruct T; cbn [fits spec_decode] in *;
    try (destruct content as [| b [| ? ?]]; try discriminate H;
         eexists; reflexivity);
    try (rewrite decide_True by exact H; eexists; reflexivity);
    try (eexists; reflexivity).
  destruct H.
Qed.



(** C10.  With the read cursor equal to [parts()], [m >> x] throws and has
    advanced the cursor all the same: afterwards the cursor is
    [parts() + 1] and [remaining()], the unsigned difference, is
    [2^64 - 1]. *)
Theorem stream_extract_at_end_still_advances p T m :
  well_formed m ->
  read_cursor m = parts m ->
  (exists e, snd (stream_extract p T m) = Throws e)
  /\ _parts (fst (stream_extract p T m)) = _parts m
  /\ read_cursor (fst (stream_extract p T m)) = parts m + 1
  /\ remaining (fst (stream_extract p T m)) = 2 ^ 64 - 1.
Proof.
  intros [Hc Hp] Hend. unfold stream_extract, read_cursor, remaining, parts in *.
  cbn [fst snd _parts _read_cursor].
  assert (Hnext : size_t (_read_cursor m + 1) = Z.of_nat (length (_parts m)) + 1)
    by (rewrite Hend; apply size_t_small; lia).
  split; [| split; [reflexivity | split; [exact Hnext |]]].
  - assert (Hn : (length (_parts m) <= Z.to_nat (_read_cursor m))%nat) by lia.
    destruct T;
      try (exists part_out_of_range; apply get_out_of_range;
           [unfold supported; discriminate | exact Hn]).
    exists unknown_type. reflexivity.
  - rewrite Hnext. unfold size_t, to_unsigned.
    replace (Z.of_nat (length (_parts m)) - (Z.of_nat (length (_parts m)) + 1))
      with (-1) by lia.
    reflexivity.
Qed.

Lemma stream_extract_at_end_still_advances_witness :
  let p := linux_amd64 in
  let m := Message [frame_of_bytes [104; 105]] 1 in
  well_formed m
  /\ read_cursor m = parts m
  /\ (exists e, snd (stream_extract p g_string m) = Throws e)
  /\ _parts (fst (stream_extract p g_string m)) = _parts m
  /\ read_cursor (fst (stream_extract p g_string m)) = parts m + 1
  /\ remaining (fst (stream_extract p g_string m)) = 2 ^ 64 - 1.
Proof.
  cbv zeta.
  assert (Hm : well_formed (Message [frame_of_bytes [104; 105]] 1))
    by (unfold well_formed, parts; cbn [_parts _read_cursor length]; lia).
  split; [exact Hm |]. split; [reflexivity |].
  apply stream_extract_at_end_still_advances; [exact Hm | reflexivity].
Defined.

(** *** Inserting scalars *)

Lemma stored_whole bs buf :
  length buf = length bs -> stored bs buf 0 = bs.
Proof.
  intros H. unfold stored. cbn [take Nat.add app].
  rewrite drop_ge by lia. apply app_nil_r.
Qed.

(** The generic [operator<<] appends one frame holding the big-endian bytes
    of the scalar. *)
Lemma insert_scalar_frame p x m :
  insert_scalar p x m
  = Returns (emplace_back
               (frame_of_bytes (be_bytes (sizeof (type_of x)) (wire_word x))) m).
Proof.
  unfold insert_scalar, frame_reserve. cbn [frame_bytes frame_sent].
  rewrite to_be_stored by (rewrite repeat_length; cbn; lia).
  cbn [defined mbind outcome_bind it_buf].
  rewrite stored_whole by (rewrite repeat_length, be_bytes_length; reflexivity).
  reflexivity.
Qed.

(** What [m << x] appends, [get<T>] at the new index reads back, whichever
    the targets of the writer and of the reader. *)
Lemma insert_scalar_get_scalar p q x m :
  representable x ->
  exists m',
    insert_scalar p x m = Returns m'
    /\ get_scalar q (type_of x) m' (length (_parts m)) = Returns x.
Proof.
  intros Hx. eexists. split; [apply insert_scalar_frame |].
  set (bs := be_bytes (sizeof (type_of x)) (wire_word x)).
  assert (Hf : _parts (emplace_back (frame_of_bytes bs) m) !! length (_parts m)
               = Some (frame_of_bytes bs)).
  { cbn [emplace_back _parts]. apply list_lookup_middle. reflexivity. }
  unfold get_scalar. in_range Hf.
  unfold frame_size. cbn [frame_of_bytes frame_bytes]. subst bs.
  rewrite be_bytes_length.
  rewrite bool_decide_eq_true_2 by reflexivity.
  rewrite assert_holds by reflexivity. cbn [mbind outcome_bind].
  rewrite <- (stored_whole (be_bytes (sizeof (type_of x)) (wire_word x))
                (be_bytes (sizeof (type_of x)) (wire_word x))) by reflexivity.
  rewrite from_be_stored; [reflexivity | exact Hx |].
  rewrite be_bytes_length. cbn. lia.
Qed.

(** *** Signals *)

(** On a single frame of 8 bytes, [is_signal()] compares the content, read
    as a big-endian signed 64-bit integer and shifted right by 8, with the
    header. *)
Lemma is_signal_one_frame header p f c :
  frame_size f = 8%nat ->
  Forall is_byte (frame_bytes f) ->
  is_signal header p (Message [f] c)
  = Returns (bool_decide
               (Z.shiftr (to_signed 64 (be_value (frame_bytes f))) 8 = header)).
Proof.
  intros H8 Hb. unfold is_signal, parts. cbn [_parts length].
  rewrite decide_True by reflexivity.
  assert (Hf : _parts (Message [f] c) !! 0%nat = Some f) by reflexivity.
  in_range Hf. rewrite decide_True by exact H8.
  unfold get_int64.
  rewrite (get_scalar_value p (t_int int64_t) _ 0 f Hf H8 Hb).
  reflexivity.
Qed.

Lemma is_signal_other_size header p f c :
  frame_size f <> 8%nat -> is_signal header p (Message [f] c) = Returns false.
Proof.
  intros H8. unfold is_signal, parts. cbn [_parts length].
  rewrite decide_True by reflexivity.
  assert (Hf : _parts (Message [f] c) !! 0%nat = Some f) by reflexivity.
  in_range Hf. rewrite decide_False by exact H8. reflexivity.
Qed.

Lemma is_signal_other_parts header p m :
  parts m <> 1 -> is_signal header p m = Returns false.
Proof. intros H. unfold is_signal. rewrite decide_False by exact H. reflexivity. Qed.

(** C6.  [is_signal()] always returns, and it returns true if and only if
    the message has exactly one part, that frame is 8 bytes wide, and its
    content read as a big-endian signed 64-bit integer and shifted right by
    8 is the reserved header. *)
Theorem is_signal_iff header p m :
  bytes_ok m ->
  (exists b, is_signal header p m = Returns b)
  /\ (is_signal header p m = Returns true
      <-> parts m = 1
          /\ exists f, _parts m = [f]
                       /\ frame_size f = 8%nat
                       /\ Z.shiftr (to_signed 64 (be_value (frame_bytes f))) 8
                          = header).
Proof.
  intros Hok.
  destruct (decide (parts m = 1)) as [H1 | H1].
  - destruct m as [ps c]. unfold parts, bytes_ok in *. cbn [_parts] in *.
    destruct ps as [| f [| g ps]]; cbn [length] in H1; try lia.
    apply Forall_cons in Hok as [Hb _].
    destruct (decide (frame_size f = 8%nat)) as [H8 | H8].
    + rewrite (is_signal_one_frame header p f c H8 Hb).
      split; [eexists; reflexivity |]. split.
      * intros Ht. injection Ht as Ht. apply bool_decide_eq_true_1 in Ht.
        split; [reflexivity |]. exists f. repeat split; assumption.
      * intros (_ & f' & Heq & _ & Hh). injection Heq as <-.
        f_equal. apply bool_decide_eq_true_2. exact Hh.
    + rewrite (is_signal_other_size header p f c H8).
      split; [eexists; reflexivity |]. split; [discriminate |].
      intros (_ & f' & Heq & Hsz & _). injection Heq as <-. contradiction.
  - rewrite (is_signal_other_parts header p m H1).
    split; [eexists; reflexivity |]. split; [discriminate |].
    intros (H & _). contradiction.
Qed.

Lemma is_signal_iff_witness :
  let p := linux_amd64 in
  let m := Message [frame_of_bytes [119; 102; 85; 68; 51; 34; 17; 2]] 0 in
  let header := 0x77665544332211 in
  bytes_ok m
  /\ (exists b, is_signal header p m = Returns b)
  /\ (is_signal header p m = Returns true
      <-> parts m = 1
          /\ exists f, _parts m = [f]
                       /\ frame_size f = 8%nat
                       /\ Z.shiftr (to_signed 64 (be_value (frame_bytes f))) 8
                          = header).
Proof.
  cbv zeta.
  assert (Hok : bytes_ok (Message [frame_of_bytes [119; 102; 85; 68; 51; 34; 17; 2]] 0)).
  { unfold bytes_ok, is_byte. cbn [_parts frame_of_bytes frame_bytes].
    repeat constructor; lia. }
  split; [exact Hok |]. apply is_signal_iff. exact Hok.
Defined.

(** A message made by inserting an encoded signal is a signal, provided the
    header fits the 56 bits left of the code. *)
Lemma encoded_signal_is_signal header code p :
  signed_range 56 header ->
  exists m,
    stream_insert p (i_signal (make_signal header code)) empty_message
    = Returns m
    /\ is_signal header p m = Returns true.
Proof.
  intros [Hlo Hhi]. cbn [stream_insert]. rewrite insert_scalar_frame.
  eexists. split; [reflexivity |]. cbn [type_of sizeof int_bytes wire_word].
  unfold emplace_back, empty_message. cbn [_parts _read_cursor app].
  rewrite is_signal_one_frame.
  - f_equal. apply bool_decide_eq_true_2.
    cbn [frame_of_bytes frame_bytes]. rewrite be_value_be_bytes.
    assert (Hsig : make_signal header code = header * 256 + code mod 256).
    { unfold make_signal. rewrite land_255, Z.shiftl_mul_pow2 by lia.
      apply (lor_add _ _ 8); [lia | apply Z.mod_pos_bound; lia |].
      apply Z_mod_mult. }
    pose proof (Z.mod_pos_bound code 256 ltac:(lia)) as Hc.
    change (2 ^ (56 - 1)) with 36028797018963968 in *.
    assert (Hr : signed_range 64 (make_signal header code)).
    { rewrite Hsig. unfold signed_range.
      change (2 ^ (64 - 1)) with 9223372036854775808. lia. }
    change (2 ^ (8 * Z.of_nat 8)) with (2 ^ 64).
    fold (to_unsigned 64 (to_unsigned 64 (make_signal header code))).
    rewrite (to_unsigned_small 64 (to_unsigned 64 _))
      by (apply to_unsigned_range; lia).
    rewrite to_signed_to_unsigned by (lia || exact Hr).
    rewrite Hsig, Z.shiftr_div_pow2 by lia. change (2 ^ 8) with 256.
    Z.div_mod_to_equations. lia.
  - unfold frame_size. cbn [frame_of_bytes frame_bytes]. apply be_bytes_length.
  - apply be_bytes_are_bytes.
Qed.

(** *** Copying *)

Lemma length_resize n ps : length (resize n ps) = n.
Proof.
  unfold resize. rewrite length_app, length_take, repeat_length. lia.
Qed.

Lemma copy_loop_frames source : forall count ndx ps,
  length ps = length source ->
  (ndx + count = length source)%nat ->
  copy_loop count ndx source ps
  = Returns (take ndx ps ++ map frame_copy (drop ndx source)).
Proof.
  induction count as [| count IH]; intros ndx ps Hlen Hn; cbn [copy_loop].
  - rewrite take_ge, drop_ge by lia. cbn. rewrite app_nil_r. reflexivity.
  - destruct (lookup_lt_is_Some_2 source ndx ltac:(lia)) as [f Hf].
    rewrite (at_index_lookup _ _ _ Hf). cbn [mbind outcome_bind].
    rewrite IH by (rewrite ?length_insert; lia).
    rewrite (drop_S source f ndx Hf). cbn [map].
    rewrite (take_S_r _ _ (frame_copy f))
      by (apply list_lookup_insert_eq; lia).
    rewrite take_insert_ge by lia.
    rewrite <- app_assoc. reflexivity.
Qed.

(** [copy(source)] returns, with a copy of every frame of the source in the
    source's order and with the source's cursor. *)
Lemma copy_duplicates source m :
  copy source m
  = Returns (Message (map frame_copy (_parts source)) (_read_cursor source)).
Proof.
  unfold copy.
  rewrite (copy_loop_frames (_parts source)) by (rewrite ?length_resize; lia).
  reflexivity.
Qed.

(** *** The effect of each operation on the cursor and the part count *)

Lemma add_raw_appends content n m m' :
  add_raw content n m = Returns m' -> exists f, m' = emplace_back f m.
Proof.
  unfold add_raw. destruct (decide _); [| discriminate].
  intros H. injection H as <-. eexists. reflexivity.
Qed.

Lemma insert_c_string_appends_frame c_string m m' :
  insert_c_string c_string m = Returns m' -> exists f, m' = emplace_back f m.
Proof.
  unfold insert_c_string. destruct (strlen c_string); cbn; [| discriminate].
  apply add_raw_appends.
Qed.

Lemma stream_insert_appends p content m m' :
  stream_insert p content m = Returns m' -> exists f, m' = emplace_back f m.
Proof.
  destruct content; cbn [stream_insert]; unfold insert_uint8;
    rewrite ?insert_scalar_frame;
    first [apply add_raw_appends | apply insert_c_string_appends_frame | idtac];
    intros H; injection H as <-; eexists; reflexivity.
Qed.

Lemma parts_emplace_back f m : parts (emplace_back f m) = parts m + 1.
Proof. unfold parts. cbn. rewrite length_app. cbn. lia. Qed.

Lemma parts_emplace_front f m : parts (emplace_front f m) = parts m + 1.
Proof. unfold parts. cbn [emplace_front _parts length]. lia. Qed.

Lemma push_front_prepends content n m m' :
  push_front content n m = Returns m' -> exists f, m' = emplace_front f m.
Proof.
  unfold push_front. destruct (decide _); [| discriminate].
  intros H. injection H as <-. eexists. reflexivity.
Qed.

(** The template [push_front] prepends one frame holding the big-endian
    bytes of the scalar. *)
Lemma push_front_scalar_frame p x m :
  push_front_scalar p x m
  = Returns (emplace_front
               (frame_of_bytes (be_bytes (sizeof (type_of x)) (wire_word x))) m).
Proof.
  unfold push_front_scalar, frame_reserve. cbn [frame_bytes frame_sent].
  rewrite to_be_stored by (rewrite repeat_length; cbn; lia).
  cbn [defined mbind outcome_bind it_buf].
  rewrite stored_whole by (rewrite repeat_length, be_bytes_length; reflexivity).
  reflexivity.
Qed.

Lemma push_front_value_prepends p content m m' :
  push_front_value p content m = Returns m' -> exists f, m' = emplace_front f m.
Proof.
  destruct content; cbn [push_front_value];
    rewrite ?push_front_scalar_frame, ?push_front_string_keeps_all;
    try apply push_front_prepends;
    try (intros H; injection H as <-; eexists; reflexivity).
  unfold push_front_c_string. destruct (strlen c_string); cbn; [| discriminate].
  apply push_front_prepends.
Qed.

Lemma length_removelast {A} (l : list A) :
  length (removelast l) = (length l - 1)%nat.
Proof.
  induction l as [| a [| b l] IH]; cbn [removelast length] in *; lia.
Qed.

Lemma step_has_effect p op m m' :
  step p op m = Some m' -> step_effect op m m'.
Proof.
  destruct op; cbn [step step_effect].
  - destruct (stream_insert p content m) as [m1 | | |] eqn:H; try discriminate.
    intros E. injection E as <-.
    apply stream_insert_appends in H as [f ->].
    split; [reflexivity | apply parts_emplace_back].
  - unfold stream_extract.
    destruct (get p T _ _); try discriminate;
      intros E; injection E as <-; split; reflexivity.
  - intros E. injection E as <-. split; reflexivity.
  - destruct (push_front content data_size m) as [m1 | | |] eqn:H;
      try discriminate.
    intros E. injection E as <-. apply push_front_prepends in H as [f ->].
    split; [reflexivity | apply parts_emplace_front].
  - destruct (push_front_value p content m) as [m1 | | |] eqn:H;
      try discriminate.
    intros E. injection E as <-. apply push_front_value_prepends in H as [f ->].
    split; [reflexivity | apply parts_emplace_front].
  - unfold push_back.
    destruct (add_raw content data_size m) as [m1 | | |] eqn:H; try discriminate.
    intros E. injection E as <-. apply add_raw_appends in H as [f ->].
    split; [reflexivity | apply parts_emplace_back].
  - destruct (stream_insert p content m) as [m1 | | |] eqn:H; try discriminate.
    intros E. injection E as <-.
    apply stream_insert_appends in H as [f ->].
    split; [reflexivity | apply parts_emplace_back].
  - unfold pop_front, parts. destruct (_parts m) as [| f ps]; [discriminate |].
    intros E. injection E as <-. cbn. repeat split; lia.
  - unfold pop_back, parts. destruct (_parts m) as [| f ps] eqn:Hps; [discriminate |].
    intros E. injection E as <-. cbn [_parts _read_cursor].
    change (match ps with [] => [] | _ :: _ => f :: removelast ps end)
      with (removelast (f :: ps)).
    rewrite length_removelast. cbn [length]. repeat split; lia.
  - unfold remove, parts. destruct (decide _) as [Hlt |]; [| discriminate].
    intros E. injection E as <-. cbn [_parts _read_cursor].
    rewrite length_delete by (apply lookup_lt_is_Some_2; exact Hlt).
    repeat split; lia.
  - intros E. injection E as <-. split; reflexivity.
  - intros E. injection E as <-. destruct rhs. reflexivity.
  - intros E. injection E as <-. split; reflexivity.
  - rewrite copy_duplicates. intros E. injection E as <-.
    unfold parts. cbn. rewrite length_map. split; reflexivity.
Qed.

(** *** The read cursor across sequences of operations *)


(** So does a pop once everything has been read, *)
Lemma pop_takes_parts_below_cursor :
  step linux_amd64 op_pop_back (Message [frame_of_bytes [42]] 1)
  = Some (Message [] 1).
Proof. reflexivity. Qed.

(** and an extraction that fails. *)
Lemma failed_extract_takes_cursor_past_parts :
  step linux_amd64 (op_extract g_string) empty_message = Some (Message [] 1).
Proof. reflexivity. Qed.

Lemma size_t_le x : 0 <= x -> 0 <= size_t x <= x.
Proof.
  intros H. unfold size_t, to_unsigned. split.
  - apply Z.mod_pos_bound. lia.
  - apply Z.mod_le; lia.
Qed.

Lemma parts_nonneg m : 0 <= parts m.
Proof. unfold parts. lia. Qed.

(** A guarded operation keeps the cursor within the parts. *)
Lemma guarded_step_keeps_cursor p op m m' :
  0 <= _read_cursor m <= parts m ->
  (forall o, operand op = Some o -> 0 <= _read_cursor o <= parts o) ->
  guarded op m ->
  step p op m = Some m' ->
  0 <= _read_cursor m' <= parts m'.
Proof.
  intros Hm Ho Hg Hstep. apply step_has_effect in Hstep.
  pose proof (parts_nonneg m').
  destruct op; cbn [step_effect guarded operand] in *;
    try (pose proof (size_t_le (_read_cursor m + 1) ltac:(lia))); try lia.
  - subst m'. apply Ho. reflexivity.
  - specialize (Ho source eq_refl). lia.
Qed.



End MessageFacts.

(** ** Further laws of the codec *)

Module CodecLaws.
Import CInt CIntFacts Endian Wire EndianFacts Usage.

(** X1.  The bytes [to_be] writes, and whether it can write them, do not
    depend on the implementation selected: the platform primitive and the
    shift-and-mask code, for either word size and either host byte order,
    behave alike on every value and every destination. *)
Theorem to_be_same_on_every_target p q x dst :
  to_be p x dst = to_be q x dst.
Proof.
  destruct x as [[] v | f | f]; cbn [to_be];
    rewrite ?(to_be_uint16_bytes p), ?(to_be_uint16_bytes q),
            ?(to_be_uint32_bytes p), ?(to_be_uint32_bytes q),
            ?(to_be_uint64_bytes p), ?(to_be_uint64_bytes q);
    reflexivity.
Qed.

Lemma holds_take_drop n buf off :
  holds (take n (drop off buf)) buf off.
Proof.
  intros i b H. apply lookup_take_Some in H as [H _].
  rewrite lookup_drop in H. exact H.
Qed.

Lemma length_take_drop n (buf : list Z) off :
  (off + n <= length buf)%nat -> length (take n (drop off buf)) = n.
Proof. intros H. rewrite length_take, length_drop. lia. Qed.

(** [from_be<T>] at a position holding the bytes [bs] *)
Lemma from_be_at q T bs buf off :
  length bs = sizeof T -> Forall is_byte bs -> holds bs buf off ->
  from_be q T (ByteIter buf off) = Some (scalar_of_word T (be_value bs)).
Proof.
  intros Hlen Hbs H.
  destruct T as [[] | |]; cbn [from_be sizeof int_bytes scalar_of_word] in *;
    first [rewrite (from_be_uint16_value q bs buf off Hlen Hbs H)
          | rewrite (from_be_uint32_value q bs buf off Hlen Hbs H)
          | rewrite (from_be_uint64_value q bs buf off Hlen Hbs H)];
    reflexivity.
Qed.

(** X2.  [from_be<T>] reads the [sizeof(T)] bytes at the iterator most
    significant first: on every build target the result is the big-endian
    value of exactly those bytes, converted to [T], whatever else the
    buffer holds. *)
Theorem from_be_reads_big_endian q T buf off :
  Forall is_byte buf ->
  (off + sizeof T <= length buf)%nat ->
  from_be q T (ByteIter buf off)
  = Some (scalar_of_word T (be_value (take (sizeof T) (drop off buf)))).
Proof.
  intros Hbuf Hlen. apply from_be_at.
  - apply length_take_drop, Hlen.
  - apply Forall_take, Forall_drop, Hbuf.
  - apply holds_take_drop.
Qed.

Lemma from_be_reads_big_endian_witness :
  let buf := [9; 255; 254; 7] in
  Forall is_byte buf
  /\ (1 + sizeof (t_int int16_t) <= length buf)%nat
  /\ from_be portable_be32 (t_int int16_t) (ByteIter buf 1)
     = Some (scalar_of_word (t_int int16_t)
               (be_value (take (sizeof (t_int int16_t)) (drop 1 buf)))).
Proof.
  cbv zeta.
  assert (Hb : Forall is_byte [9; 255; 254; 7])
    by (unfold is_byte; repeat constructor; lia).
  assert (Hl : (1 + sizeof (t_int int16_t) <= length [9; 255; 254; 7])%nat)
    by (cbn; lia).
  split; [exact Hb |]. split; [exact Hl |].
  apply from_be_reads_big_endian; [exact Hb | exact Hl].
Defined.

(** *** Decoding, then encoding *)

Lemma le_value_range bs :
  Forall is_byte bs -> 0 <= le_value bs < 2 ^ (8 * Z.of_nat (length bs)).
Proof.
  induction 1 as [| b bs Hb Hbs IH]; cbn [le_value length].
  - cbn. lia.
  - replace (8 * Z.of_nat (S (length bs))) with (8 + 8 * Z.of_nat (length bs))
      by lia.
    rewrite Z.pow_add_r by lia. change (2 ^ 8) with 256.
    unfold is_byte in Hb. lia.
Qed.

Lemma be_value_range bs :
  Forall is_byte bs -> 0 <= be_value bs < 2 ^ (8 * Z.of_nat (length bs)).
Proof.
  intros H. unfold be_value. rewrite <- (length_rev bs).
  apply le_value_range. apply Forall_forall. intros b Hb.
  apply list_elem_of_In, in_rev, list_elem_of_In in Hb.
  revert b Hb. apply Forall_forall, H.
Qed.

Lemma be_bytes_be_value bs :
  Forall is_byte bs -> be_bytes (length bs) (be_value bs) = bs.
Proof.
  intros H. unfold be_bytes, be_value. rewrite <- (length_rev bs).
  rewrite le_bytes_le_value.
  - apply rev_involutive.
  - apply Forall_forall. intros b Hb.
    apply list_elem_of_In, in_rev, list_elem_of_In in Hb.
    revert b Hb. apply Forall_forall, H.
Qed.

Lemma to_signed_range w u : 0 < w -> signed_range w (to_signed w u).
Proof.
  intros Hw. unfold signed_range, to_signed.
  pose proof (pow2_half w Hw) as Hh.
  assert (Hp : 0 < 2 ^ (w - 1)) by (apply Z.pow_pos_nonneg; lia).
  pose proof (Z.mod_pos_bound u (2 ^ w) ltac:(lia)) as Hm.
  destruct (Z.ltb_spec (u mod 2 ^ w) (2 ^ (w - 1))); lia.
Qed.

Lemma to_unsigned_to_signed w u :
  0 < w -> unsigned_range w u -> to_unsigned w (to_signed w u) = u.
Proof.
  intros Hw [Hlo Hhi]. unfold to_unsigned, to_signed.
  rewrite (Z.mod_small u) by lia.
  destruct (Z.ltb_spec u (2 ^ (w - 1))).
  - apply Z.mod_small. lia.
  - symmetry. apply (Z.mod_unique _ _ (-1)); [left; lia | lia].
Qed.

Lemma bits_to_float_range ew fw i :
  0 <= ew -> 0 <= fw -> ieee754_range ew fw (bits_to_float ew fw i).
Proof.
  intros Hew Hfw. unfold ieee754_range, bits_to_float. cbn. split.
  - apply Z.mod_pos_bound, Z.pow_pos_nonneg; lia.
  - apply Z.mod_pos_bound, Z.pow_pos_nonneg; lia.
Qed.

Lemma float_to_bits_to_float ew fw i :
  0 <= ew -> 0 <= fw -> unsigned_range (1 + ew + fw) i ->
  float_to_bits ew fw (bits_to_float ew fw i) = i.
Proof.
  intros Hew Hfw [Hlo Hhi]. unfold float_to_bits, bits_to_float. cbn.
  replace (1 + ew + fw) with (1 + (ew + fw)) in Hhi by lia.
  rewrite !Z.pow_add_r in * by lia. change (2 ^ 1) with 2 in Hhi.
  assert (Pe : 0 < 2 ^ ew) by (apply Z.pow_pos_nonneg; lia).
  assert (Pf : 0 < 2 ^ fw) by (apply Z.pow_pos_nonneg; lia).
  set (E := 2 ^ ew) in *. set (F := 2 ^ fw) in *.
  assert (Hs : 0 <= i / (E * F) <= 1).
  { split; [apply Z.div_pos; nia |].
    apply Z.lt_succ_r, Z.div_lt_upper_bound; nia. }
  assert (Hb : Z.b2z (Z.odd (i / (E * F))) = i / (E * F)).
  { destruct (Z.eq_dec (i / (E * F)) 0) as [-> | Hn]; [reflexivity |].
    replace (i / (E * F)) with 1 by lia. reflexivity. }
  rewrite Hb.
  rewrite (Z.mul_comm E F), <- Zdiv_Zdiv by lia.
  pose proof (Z.div_mod i F ltac:(lia)) as H1.
  pose proof (Z.div_mod (i / F) E ltac:(lia)) as H2.
  nia.
Qed.

Lemma scalar_of_word_type T w : type_of (scalar_of_word T w) = T.
Proof. destruct T as [[] | |]; reflexivity. Qed.

Lemma scalar_of_word_representable T w :
  unsigned_range (8 * Z.of_nat (sizeof T)) w ->
  representable (scalar_of_word T w).
Proof.
  destruct T as [[] | |];
    cbn [sizeof int_bytes scalar_of_word representable int_range]; intros H;
    first [exact H | apply to_signed_range; lia
          | apply bits_to_float_range; lia].
Qed.

Lemma wire_word_scalar_of_word T w :
  unsigned_range (8 * Z.of_nat (sizeof T)) w ->
  wire_word (scalar_of_word T w) = w.
Proof.
  destruct T as [[] | |];
    cbn [sizeof int_bytes scalar_of_word wire_word]; intros H;
    first [reflexivity
          | apply to_unsigned_to_signed; [lia | exact H]
          | apply float_to_bits_to_float; [lia | lia | exact H]].
Qed.

(** X3.  Every sequence of [sizeof(T)] bytes decodes, on every build target,
    to a value [T] can hold, and encoding that value gives the same bytes
    back: [from_be] followed by [to_be] is the identity on buffers. *)
Theorem from_be_then_to_be_restores_bytes p q T bs buf :
  length bs = sizeof T ->
  Forall is_byte bs ->
  length buf = sizeof T ->
  exists x,
    from_be q T (ByteIter bs 0) = Some x
    /\ type_of x = T
    /\ representable x
    /\ to_be p x (ByteIter buf 0) = Some (ByteIter bs (sizeof T)).
Proof.
  intros Hlen Hbs Hbuf.
  assert (Hr : unsigned_range (8 * Z.of_nat (sizeof T)) (be_value bs))
    by (rewrite <- Hlen; apply be_value_range, Hbs).
  exists (scalar_of_word T (be_value bs)).
  split; [apply from_be_value; assumption |].
  split; [apply scalar_of_word_type |].
  split; [apply scalar_of_word_representable, Hr |].
  rewrite to_be_stored by (rewrite scalar_of_word_type; lia).
  rewrite scalar_of_word_type, wire_word_scalar_of_word by exact Hr.
  rewrite <- Hlen at 1. rewrite be_bytes_be_value by exact Hbs.
  unfold stored. cbn [take Nat.add app].
  rewrite drop_ge by lia. rewrite app_nil_r. reflexivity.
Qed.

Lemma from_be_then_to_be_restores_bytes_witness :
  let bs := [127; 192; 0; 1] in
  let buf := [0; 0; 0; 0] in
  length bs = sizeof t_float
  /\ Forall is_byte bs
  /\ length buf = sizeof t_float
  /\ exists x,
       from_be linux_amd64 t_float (ByteIter bs 0) = Some x
       /\ type_of x = t_float
       /\ representable x
       /\ to_be portable_be32 x (ByteIter buf 0)
          = Some (ByteIter bs (sizeof t_float)).
Proof.
  cbv zeta.
  assert (Hb : Forall is_byte [127; 192; 0; 1])
    by (unfold is_byte; repeat constructor; lia).
  split; [reflexivity |]. split; [exact Hb |]. split; [reflexivity |].
  apply from_be_then_to_be_restores_bytes; [reflexivity | exact Hb | reflexivity].
Defined.

(** *** Buffers that are too short *)

Lemma put_past_end v buf off :
  (length buf <= off)%nat -> put v (ByteIter buf off) = None.
Proof. intros H. unfold put. cbn. rewrite decide_False by lia. reflexivity. Qed.

Lemma copy_n_to_short bs : forall buf off,
  bs <> [] -> (length buf < off + length bs)%nat ->
  copy_n_to bs (ByteIter buf off) = None.
Proof.
  induction bs as [| b bs IH]; intros buf off Hne Hlen; [congruence |].
  cbn [copy_n_to length] in *.
  destruct (le_lt_dec (length buf) off) as [Hge | Hlt].
  - rewrite put_past_end by exact Hge. reflexivity.
  - rewrite put_in_range by exact Hlt. cbn.
    apply IH; [| rewrite length_insert; lia].
    intros ->. cbn in Hlen. lia.
Qed.

Lemma fetch_past_end buf off :
  (length buf <= off)%nat -> fetch (ByteIter buf off) = None.
Proof.
  intros H. unfold fetch. cbn. rewrite (lookup_ge_None_2 _ _ H). reflexivity.
Qed.

Lemma fetch_in_range buf off :
  (off < length buf)%nat ->
  exists b, fetch (ByteIter buf off) = Some (b, ByteIter buf (S off)).
Proof.
  intros H. destruct (lookup_lt_is_Some_2 buf off H) as [b Hb].
  exists b. unfold fetch. cbn. rewrite Hb. reflexivity.
Qed.

Lemma copy_n_from_short n : forall buf off,
  n <> O -> (length buf < off + n)%nat ->
  copy_n_from n (ByteIter buf off) = None.
Proof.
  induction n as [| n IH]; intros buf off Hne Hlen; [congruence |].
  cbn [copy_n_from].
  destruct (le_lt_dec (length buf) off) as [Hge | Hlt].
  - rewrite fetch_past_end by exact Hge. reflexivity.
  - destruct (fetch_in_range buf off Hlt) as [b ->]. cbn.
    rewrite IH; [reflexivity | lia | lia].
Qed.

(** a chain of [*src++] stops at the first read past the end *)
Ltac fetch_short :=
  repeat match goal with
    | |- context [fetch (ByteIter ?buf ?off)] =>
        let Hge := fresh "Hge" in
        let Hlt := fresh "Hlt" in
        destruct (le_lt_dec (length buf) off) as [Hge | Hlt];
        [ rewrite (fetch_past_end buf off Hge); reflexivity
        | try (exfalso; lia);
          destruct (fetch_in_range buf off Hlt) as [? ->];
          cbn [mbind option_bind]; clear Hlt ]
    end.

Lemma from_be_uint16_short p buf off :
  (length buf < off + 2)%nat -> from_be_uint16 p (ByteIter buf off) = None.
Proof.
  intros Hlen. unfold from_be_uint16. destruct (native16 p).
  - rewrite copy_n_from_short by lia. reflexivity.
  - fetch_short.
Qed.

Lemma from_be_uint32_short p buf off :
  (length buf < off + 4)%nat -> from_be_uint32 p (ByteIter buf off) = None.
Proof.
  intros Hlen. unfold from_be_uint32. destruct (native32 p).
  - rewrite copy_n_from_short by lia. reflexivity.
  - fetch_short.
Qed.

Lemma from_be_uint64_short p buf off :
  (length buf < off + 8)%nat -> from_be_uint64 p (ByteIter buf off) = None.
Proof.
  intros Hlen. unfold from_be_uint64. destruct (native64 p).
  - rewrite copy_n_from_short by lia. reflexivity.
  - fetch_short.
Qed.

Lemma be_bytes_nonempty n x : n <> O -> be_bytes n x <> [].
Proof.
  intros Hn H. apply (f_equal (@length Z)) in H.
  rewrite be_bytes_length in H. cbn in H. congruence.
Qed.

Lemma sizeof_nonzero T : sizeof T <> O.
Proof. destruct T as [[] | |]; discriminate. Qed.

Lemma to_be_short p x buf off :
  (length buf < off + sizeof (type_of x))%nat ->
  to_be p x (ByteIter buf off) = None.
Proof.
  intros H.
  destruct x as [[] v | f | f]; cbn [to_be type_of sizeof int_bytes] in *;
    rewrite ?to_be_uint16_bytes, ?to_be_uint32_bytes, ?to_be_uint64_bytes;
    (apply copy_n_to_short;
     [apply be_bytes_nonempty; discriminate | rewrite be_bytes_length; exact H]).
Qed.

Lemma from_be_short q T buf off :
  (length buf < off + sizeof T)%nat -> from_be q T (ByteIter buf off) = None.
Proof.
  intros H.
  destruct T as [[] | |]; cbn [from_be sizeof int_bytes] in *;
    first [rewrite from_be_uint16_short by exact H
          | rewrite from_be_uint32_short by exact H
          | rewrite from_be_uint64_short by exact H];
    reflexivity.
Qed.

Lemma from_be_room q T buf off :
  (off + sizeof T <= length buf)%nat ->
  is_Some (from_be q T (ByteIter buf off)).
Proof.
  intros H.
  assert (Hh : holds (take (sizeof T) (drop off buf)) buf off)
    by apply holds_take_drop.
  pose proof (length_take_drop (sizeof T) buf off H) as Hl.
  destruct (take (sizeof T) (drop off buf)) as [| b0 bs] eqn:E;
    [pose proof (sizeof_nonzero T); cbn in Hl; congruence |].
  destruct T as [[] | |]; cbn [from_be sizeof int_bytes] in *;
    unfold from_be_uint16, from_be_uint32, from_be_uint64;
    match goal with
    | |- context [if ?c then _ else _] => destruct c
    end;
    try (rewrite <- Hl, (copy_n_from_holds _ _ _ Hh); cbn; eexists; reflexivity);
    repeat (destruct bs as [| ? bs]; [discriminate Hl |]);
    fetch_all Hh; try destruct (wordsize q); cbn; eexists; reflexivity.
Qed.

Lemma from_be_type q T src x : from_be q T src = Some x -> type_of x = T.
Proof.
  destruct T as [[] | |]; cbn [from_be];
    match goal with
    | |- context [?f <$> ?o] => destruct o; cbn
    end;
    intros H; try discriminate H; injection H as <-; reflexivity.
Qed.

(** X4.  [to_be] and [from_be<T>] touch exactly [sizeof(T)] bytes: each is
    defined when that many bytes lie between the iterator and the end of
    the buffer, and runs off the end of the buffer otherwise, on every
    build target. *)
Theorem codec_defined_iff_room p x T buf off :
  (is_Some (to_be p x (ByteIter buf off))
   <-> (off + sizeof (type_of x) <= length buf)%nat)
  /\ (is_Some (from_be p T (ByteIter buf off))
      <-> (off + sizeof T <= length buf)%nat).
Proof.
  split; split.
  - intros Hs. destruct (le_lt_dec (off + sizeof (type_of x)) (length buf))
      as [Hle | Hlt]; [exact Hle |].
    rewrite to_be_short in Hs by exact Hlt. destruct Hs as [? Hs]. discriminate Hs.
  - intros Hle. rewrite to_be_stored by exact Hle. eexists. reflexivity.
  - intros Hs. destruct (le_lt_dec (off + sizeof T) (length buf))
      as [Hle | Hlt]; [exact Hle |].
    rewrite from_be_short in Hs by exact Hlt. destruct Hs as [? Hs]. discriminate Hs.
  - apply from_be_room.
Qed.

(** *** Reading with the other signedness *)

Lemma to_signed_mod w x : 0 < w -> to_signed w (to_unsigned w x) = to_signed w x.
Proof.
  intros Hw. unfold to_signed, to_unsigned. rewrite Z.mod_mod; [reflexivity |].
  apply Z.pow_nonzero; lia.
Qed.

Lemma to_unsigned_mod w x : 0 < w -> to_unsigned w (to_unsigned w x) = to_unsigned w x.
Proof.
  intros Hw. unfold to_unsigned. apply Z.mod_mod, Z.pow_nonzero; lia.
Qed.

(** X5.  An integer written as one type and read as another integer type of
    the same width comes out as the C++ conversion of the value to the type
    read, whichever the targets of writer and reader: the wire carries the
    two's-complement bits. *)
Theorem to_be_from_be_reinterprets p q t t' x buf off :
  int_bytes t = int_bytes t' ->
  int_range t x ->
  (off + int_bytes t <= length buf)%nat ->
  exists dst,
    to_be p (s_int t x) (ByteIter buf off) = Some dst
    /\ from_be q (t_int t') (ByteIter (it_buf dst) off)
       = Some (s_int t' (cast_int t' x)).
Proof.
  intros Hw Hx Hlen. eexists.
  split; [apply (to_be_stored p (s_int t x)); exact Hlen |].
  cbn [it_buf type_of sizeof].
  destruct t, t'; try discriminate Hw;
    cbn [from_be wire_word int_bytes cast_int int_range] in *;
    first [rewrite from_be_uint16_stored by exact Hlen
          | rewrite from_be_uint32_stored by exact Hlen
          | rewrite from_be_uint64_stored by exact Hlen];
    cbn [fmap option_fmap option_map]; do 2 f_equal;
    rewrite ?to_unsigned_mod, ?to_signed_mod by lia;
    try reflexivity.
Qed.

Lemma to_be_from_be_reinterprets_witness :
  let buf := [0; 0; 0; 0] in
  int_bytes int32_t = int_bytes uint32_t
  /\ int_range int32_t (-1)
  /\ (0 + int_bytes int32_t <= length buf)%nat
  /\ exists dst,
       to_be linux_amd64 (s_int int32_t (-1)) (ByteIter buf 0) = Some dst
       /\ from_be portable_be32 (t_int uint32_t) (ByteIter (it_buf dst) 0)
          = Some (s_int uint32_t (cast_int uint32_t (-1))).
Proof.
  cbv zeta.
  assert (Hx : int_range int32_t (-1)) by (cbn; unfold signed_range; lia).
  assert (Hl : (0 + int_bytes int32_t <= length [0; 0; 0; 0])%nat) by (cbn; lia).
  split; [reflexivity |]. split; [exact Hx |]. split; [exact Hl |].
  apply to_be_from_be_reinterprets; [reflexivity | exact Hx | exact Hl].
Defined.

End CodecLaws.

(** ** Further laws of the message *)

Module MessageLaws.
Import CInt CIntFacts Endian Wire EndianFacts Message MessageFacts Usage.
Import CodecLaws.

(** *** What typed access depends on *)

Lemma get_past_end p T m part :
  _parts m !! part = None ->
  get p T m part
  = Throws (match T with g_unspecialised => unknown_type | _ => part_out_of_range end).
Proof.
  intros H. apply lookup_ge_None_1 in H.
  destruct T; try reflexivity;
    apply get_out_of_range; (exact H || (unfold supported; discriminate)).
Qed.

(** [get<T>(part)] depends on the message through the frame at [part], if
    any. *)
Lemma get_ext p T m i m' j :
  _parts m !! i = _parts m' !! j -> get p T m i = get p T m' j.
Proof.
  intros H. destruct (_parts m !! i) as [f |] eqn:Hi.
  - rewrite (get_frame p T m i f Hi). symmetry. apply get_frame. symmetry. exact H.
  - rewrite (get_past_end p T m i Hi). symmetry. apply get_past_end.
    symmetry. exact H.
Qed.

(** and through the content of that frame only, not its [sent] flag *)
Lemma get_same_bytes p T m i m' j f g :
  _parts m !! i = Some f -> _parts m' !! j = Some g ->
  frame_bytes f = frame_bytes g ->
  get p T m i = get p T m' j.
Proof.
  intros Hf Hg Hb.
  rewrite (get_frame p T m i f Hf), (get_frame p T m' j g Hg).
  destruct f as [bf sf], g as [bg sg]. cbn in Hb. subst bg.
  destruct T; reflexivity.
Qed.

(** *** What an insertion appends *)

Lemma strlen_until_nul mem :
  In 0 mem -> strlen mem = Some (length (until_nul mem)).
Proof.
  induction mem as [| b mem IH]; intros H; [destruct H |].
  cbn [strlen until_nul]. destruct (Z.eqb_spec b 0) as [-> | Hb]; [reflexivity |].
  destruct H as [H | H]; [congruence |].
  rewrite (IH H). reflexivity.
Qed.

Lemma until_nul_prefix mem :
  take (length (until_nul mem)) mem = until_nul mem
  /\ (length (until_nul mem) <= length mem)%nat.
Proof.
  induction mem as [| b mem [IH1 IH2]]; [split; reflexivity |].
  cbn [until_nul]. destruct (Z.eqb_spec b 0) as [-> | Hb]; cbn [length take].
  - split; [reflexivity | lia].
  - rewrite IH1. split; [reflexivity | lia].
Qed.

Lemma until_nul_c_str s : until_nul (c_str s) = until_nul s.
Proof.
  unfold c_str. induction s as [| b s IH]; [reflexivity |].
  cbn [app until_nul]. destruct (Z.eqb_spec b 0); [reflexivity |].
  rewrite IH. reflexivity.
Qed.

Lemma insert_c_string_frame c_string m :
  In 0 c_string ->
  insert_c_string c_string m
  = Returns (emplace_back (frame_of_bytes (until_nul c_string)) m).
Proof.
  intros H. unfold insert_c_string. rewrite (strlen_until_nul _ H).
  cbn [defined mbind outcome_bind]. unfold add_raw.
  destruct (until_nul_prefix c_string) as [Ht Hl].
  rewrite decide_True by exact Hl. rewrite Ht. reflexivity.
Qed.

(** Every insertion whose precondition holds returns, having appended one
    frame with the encoding of the value. *)
Lemma stream_insert_frame p content m :
  insert_defined content ->
  stream_insert p content m
  = Returns (emplace_back (frame_of_bytes (inserted_bytes content)) m).
Proof.
  intros H. destruct content; cbn [stream_insert inserted_bytes insert_defined] in *;
    try reflexivity.
  - apply insert_scalar_frame.
  - apply (insert_scalar_frame p (s_int int64_t sig)).
  - apply insert_c_string_frame, H.
  - rewrite <- until_nul_c_str. apply insert_c_string_frame.
    unfold c_str. apply in_or_app. right. left. reflexivity.
Qed.

(** X6.  Stream insertion of a value appends exactly one frame, holding the
    big-endian bytes of a scalar, the single byte of a [uint8_t], [int8_t]
    or [bool], or the bytes of a string up to its first NUL; the read cursor
    and every part already in the message are left as they were. *)
Theorem insertion_appends_one_encoded_frame p q content m :
  insert_defined content ->
  exists m',
    stream_insert p content m = Returns m'
    /\ _parts m' = _parts m ++ [frame_of_bytes (inserted_bytes content)]
    /\ _read_cursor m' = _read_cursor m
    /\ (forall T i, (i < length (_parts m))%nat -> get q T m' i = get q T m i).
Proof.
  intros H. eexists. split; [apply stream_insert_frame, H |].
  cbn [emplace_back _parts _read_cursor]. repeat split.
  intros T i Hi. apply get_ext. cbn [_parts]. apply lookup_app_l. exact Hi.
Qed.

Lemma insertion_appends_one_encoded_frame_witness :
  let content := i_c_string (literal "hi") in
  let m := Message [frame_of_bytes [0; 42]] 1 in
  insert_defined content
  /\ exists m',
       stream_insert linux_amd64 content m = Returns m'
       /\ _parts m' = _parts m ++ [frame_of_bytes (inserted_bytes content)]
       /\ _read_cursor m' = _read_cursor m
       /\ (forall T i, (i < length (_parts m))%nat ->
             get portable_be32 T m' i = get portable_be32 T m i).
Proof.
  cbv zeta.
  assert (H : insert_defined (i_c_string (literal "hi")))
    by (cbn; right; right; left; reflexivity).
  split; [exact H |]. apply insertion_appends_one_encoded_frame. exact H.
Defined.

(** *** Reading back what was inserted *)

Lemma get_scalar_written q x m i :
  representable x ->
  _parts m !! i
  = Some (frame_of_bytes (be_bytes (sizeof (type_of x)) (wire_word x))) ->
  get_scalar q (type_of x) m i = Returns x.
Proof.
  intros Hx Hf. unfold get_scalar. in_range Hf.
  unfold frame_size. cbn [frame_of_bytes frame_bytes].
  rewrite be_bytes_length.
  rewrite bool_decide_eq_true_2 by reflexivity.
  rewrite assert_holds by reflexivity. cbn [mbind outcome_bind].
  rewrite <- (stored_whole (be_bytes (sizeof (type_of x)) (wire_word x))
                (be_bytes (sizeof (type_of x)) (wire_word x))) by reflexivity.
  rewrite from_be_stored; [reflexivity | exact Hx |].
  rewrite be_bytes_length. cbn. lia.
Qed.

Lemma get_target_of q T m i :
  get q (target_of T) m i = v_scalar <$> get_scalar q T m i.
Proof. destruct T as [[] | |]; reflexivity. Qed.

(** [get<T>] of the frame an insertion made returns the value inserted. *)
Lemma get_read_back q content m i :
  insertable_ok content ->
  _parts m !! i = Some (frame_of_bytes (inserted_bytes content)) ->
  get q (fst (read_back content)) m i = Returns (snd (read_back content)).
Proof.
  intros Hok Hf.
  destruct content; cbn [read_back fst snd inserted_bytes insertable_ok] in *.
  - rewrite get_target_of, (get_scalar_written q x m i Hok Hf). reflexivity.
  - cbn [get]. unfold get_byte. in_range Hf.
    rewrite assert_holds by reflexivity. reflexivity.
  - cbn [get]. unfold get_byte. in_range Hf.
    rewrite assert_holds by reflexivity.
    cbn [mbind outcome_bind fmap outcome_fmap frame_of_bytes frame_bytes
         at_index lookup list_lookup].
    rewrite to_signed_to_unsigned by (lia || exact Hok). reflexivity.
  - cbn [get]. unfold get_int64.
    pose proof (get_scalar_written q (s_int int64_t sig) m i Hok Hf) as H.
    cbn [type_of] in H. rewrite H. reflexivity.
  - cbn [get]. unfold get_byte. in_range Hf.
    rewrite assert_holds by reflexivity. destruct truth; reflexivity.
  - cbn [get]. in_range Hf. unfold frame_size. cbn [frame_of_bytes frame_bytes].
    rewrite firstn_all. reflexivity.
  - cbn [get]. in_range Hf. unfold frame_size. cbn [frame_of_bytes frame_bytes].
    rewrite firstn_all. reflexivity.
Qed.

Lemma insertable_ok_defined content :
  insertable_ok content -> insert_defined content.
Proof. destruct content; cbn; trivial. Qed.

Lemma add_frames p args : forall content m,
  Forall insert_defined (content :: args) ->
  add p content args m
  = Returns (Message (_parts m ++ encoded (content :: args)) (_read_cursor m)).
Proof.
  induction args as [| content' args IH]; intros content m H;
    apply Forall_cons in H as [Hc Hargs]; cbn [add];
    rewrite (stream_insert_frame p content m Hc); cbn [mbind outcome_bind].
  - reflexivity.
  - rewrite (IH content' _ Hargs). cbn [emplace_back _parts _read_cursor].
    rewrite <- app_assoc. reflexivity.
Qed.

Lemma extract_encoded q args : forall content part m,
  Forall insertable_ok (content :: args) ->
  (forall i a, (content :: args) !! i = Some a ->
     _parts m !! (part + i)%nat = Some (frame_of_bytes (inserted_bytes a))) ->
  extract q part (fst (read_back content))
    (map (fun a => fst (read_back a)) args) m
  = Returns (map (fun a => snd (read_back a)) (content :: args)).
Proof.
  induction args as [| content' args IH]; intros content part m Hok Hat;
    apply Forall_cons in Hok as [Hc Hargs];
    pose proof (Hat O content eq_refl) as H0; rewrite Nat.add_0_r in H0;
    cbn [extract map];
    (rewrite bool_decide_eq_true_2
       by (apply lookup_lt_Some in H0; unfold parts; lia));
    rewrite assert_holds by reflexivity; cbn [mbind outcome_bind];
    rewrite (get_read_back q content m part Hc H0); cbn [mbind outcome_bind].
  - reflexivity.
  - rewrite (IH content' (S part) m Hargs).
    + reflexivity.
    + intros i a Ha. replace (S part + i)%nat with (part + S i)%nat by lia.
      apply Hat. exact Ha.
Qed.

Lemma encoded_lookup contents (ps : list frame) i a :
  contents !! i = Some a ->
  (ps ++ encoded contents) !! (length ps + i)%nat
  = Some (frame_of_bytes (inserted_bytes a)).
Proof.
  intros H. rewrite lookup_app_r by lia.
  replace (length ps + i - length ps)%nat with i by lia.
  unfold encoded. rewrite list_lookup_fmap, H. reflexivity.
Qed.

(** X7.  What [add(content, args...)] appends, [extract] starting at the
    first new part reads back value for value: scalars, bytes, booleans and
    signals as inserted, strings up to their first NUL; [add] returns with
    one part more per argument. *)
Theorem add_then_extract_round_trip p q content args m0 :
  Forall insertable_ok (content :: args) ->
  exists m,
    add p content args m0 = Returns m
    /\ parts m = parts m0 + 1 + Z.of_nat (length args)
    /\ extract q (length (_parts m0)) (fst (read_back content))
         (map (fun a => fst (read_back a)) args) m
       = Returns (map (fun a => snd (read_back a)) (content :: args)).
Proof.
  intros Hok. eexists. split.
  - apply add_frames. eapply Forall_impl; [exact Hok |].
    apply insertable_ok_defined.
  - split.
    + unfold parts, encoded. cbn [_parts]. rewrite length_app, length_map.
      cbn [length]. lia.
    + apply extract_encoded; [exact Hok |].
      intros i a Ha. cbn [_parts]. apply encoded_lookup, Ha.
Qed.

Lemma add_then_extract_round_trip_witness :
  let content := i_c_string (literal "tests") in
  let args := [i_scalar (s_int int32_t 42); i_bool true] in
  Forall insertable_ok (content :: args)
  /\ exists m,
       add linux_amd64 content args empty_message = Returns m
       /\ parts m = parts empty_message + 1 + Z.of_nat (length args)
       /\ extract portable_be32 (length (_parts empty_message))
            (fst (read_back content)) (map (fun a => fst (read_back a)) args) m
          = Returns (map (fun a => snd (read_back a)) (content :: args)).
Proof.
  cbv zeta.
  assert (H : Forall insertable_ok
                [i_c_string (literal "tests"); i_scalar (s_int int32_t 42);
                 i_bool true]).
  { constructor; [| constructor; [| constructor; [| constructor]]].
    - cbn. do 5 right. left. reflexivity.
    - cbn. unfold signed_range. lia.
    - exact I. }
  split; [exact H |]. apply add_then_extract_round_trip. exact H.
Defined.

(** *** Chained stream extraction *)

Lemma stream_extract_chain_encoded q cs : forall m k,
  _read_cursor m = Z.of_nat k ->
  Z.of_nat k + Z.of_nat (length cs) < 2 ^ 64 ->
  Forall insertable_ok cs ->
  (forall i a, cs !! i = Some a ->
     _parts m !! (k + i)%nat = Some (frame_of_bytes (inserted_bytes a))) ->
  stream_extract_chain q (map (fun a => fst (read_back a)) cs) m
  = (Message (_parts m) (Z.of_nat (k + length cs)),
     Returns (map (fun a => snd (read_back a)) cs)).
Proof.
  induction cs as [| c cs IH]; intros m k Hk Hfit Hok Hat;
    cbn [map stream_extract_chain].
  - destruct m as [ps cur]. cbn in *. rewrite Nat.add_0_r. subst cur. reflexivity.
  - apply Forall_cons in Hok as [Hc Hcs]. cbn [length] in Hfit.
    pose proof (Hat O c eq_refl) as H0. rewrite Nat.add_0_r in H0.
    unfold stream_extract. rewrite Hk, Nat2Z.id.
    rewrite (get_ext q _ (Message (_parts m) (size_t (Z.of_nat k + 1))) k m k)
      by reflexivity.
    rewrite (get_read_back q c m k Hc H0).
    rewrite size_t_small by lia.
    rewrite (IH (Message (_parts m) (Z.of_nat k + 1)) (S k)).
    + cbn [_parts fmap outcome_fmap].
      replace (S k + length cs)%nat with (k + S (length cs))%nat by lia.
      reflexivity.
    + cbn. lia.
    + lia.
    + exact Hcs.
    + intros i a Ha. cbn [_parts].
      replace (S k + i)%nat with (k + S i)%nat by lia. apply Hat. exact Ha.
Qed.

(** X8.  Values inserted into a message whose parts have all been read (a
    new message, for one) stream out again in the order of insertion: the
    chain [m >> x1 >> x2 ...] over the inserted types assigns the inserted
    values and leaves the cursor at [parts()]. *)
Theorem inserted_values_stream_out_in_order p q content args m0 :
  Forall insertable_ok (content :: args) ->
  read_cursor m0 = parts m0 ->
  parts m0 + 1 + Z.of_nat (length args) < 2 ^ 64 ->
  exists m,
    add p content args m0 = Returns m
    /\ stream_extract_chain q
         (map (fun a => fst (read_back a)) (content :: args)) m
       = (Message (_parts m) (parts m),
          Returns (map (fun a => snd (read_back a)) (content :: args))).
Proof.
  intros Hok Hcur Hfit. unfold read_cursor, parts in *. eexists. split.
  - apply add_frames. eapply Forall_impl; [exact Hok |].
    apply insertable_ok_defined.
  - rewrite (stream_extract_chain_encoded q (content :: args) _
               (length (_parts m0))).
    + cbn [_parts]. unfold parts, encoded.
      rewrite length_app, length_map. reflexivity.
    + exact Hcur.
    + cbn [length]. lia.
    + exact Hok.
    + intros i a Ha. cbn [_parts]. apply encoded_lookup, Ha.
Qed.

Lemma inserted_values_stream_out_in_order_witness :
  let content := i_string (bytes_of "test part") in
  let args := [i_scalar (s_double (IEEE false 1023 0)); i_int8 (-3)] in
  Forall insertable_ok (content :: args)
  /\ read_cursor empty_message = parts empty_message
  /\ parts empty_message + 1 + Z.of_nat (length args) < 2 ^ 64
  /\ exists m,
       add linux_amd64 content args empty_message = Returns m
       /\ stream_extract_chain linux_amd64
            (map (fun a => fst (read_back a)) (content :: args)) m
          = (Message (_parts m) (parts m),
             Returns (map (fun a => snd (read_back a)) (content :: args))).
Proof.
  cbv zeta.
  assert (H : Forall insertable_ok
                [i_string (bytes_of "test part");
                 i_scalar (s_double (IEEE false 1023 0)); i_int8 (-3)]).
  { constructor; [| constructor; [| constructor; [| constructor]]].
    - exact I.
    - cbn. unfold ieee754_range. cbn. lia.
    - cbn. unfold signed_range. lia. }
  assert (Hf : parts empty_message + 1
               + Z.of_nat (length [i_scalar (s_double (IEEE false 1023 0));
                                   i_int8 (-3)]) < 2 ^ 64)
    by (unfold parts; cbn [_parts empty_message length]; lia).
  split; [exact H |]. split; [reflexivity |]. split; [exact Hf |].
  apply inserted_values_stream_out_in_order; [exact H | reflexivity | exact Hf].
Defined.

Lemma stream_extract_chain_parts p Ts : forall m,
  _parts (fst (stream_extract_chain p Ts m)) = _parts m.
Proof.
  induction Ts as [| T Ts IH]; intros m; cbn [stream_extract_chain];
    [reflexivity |].
  unfold stream_extract.
  destruct (get p T _ _); try reflexivity.
  specialize (IH (Message (_parts m) (size_t (_read_cursor m + 1)))).
  destruct (stream_extract_chain p Ts _) as [m2 os]. exact IH.
Qed.

(** X9.  After [reset_read_cursor()] a message reads as if it had never
    been read: however a first chain of extractions ended (all read, an
    exception, a failed assert), the same chain after the reset has the
    outcome it has on the reset original. *)
Theorem reset_read_cursor_rereads p Ts Ts' m :
  stream_extract_chain p Ts
    (reset_read_cursor (fst (stream_extract_chain p Ts' m)))
  = stream_extract_chain p Ts (reset_read_cursor m).
Proof.
  unfold reset_read_cursor. rewrite stream_extract_chain_parts. reflexivity.
Qed.

(** *** Pushing and popping *)

Lemma pop_front_emplace_front f m : pop_front (emplace_front f m) = Returns m.
Proof. destruct m as [ps c]. reflexivity. Qed.

Lemma pop_back_emplace_back f m : pop_back (emplace_back f m) = Returns m.
Proof.
  destruct m as [ps c]. unfold pop_back, emplace_back. cbn [_parts _read_cursor].
  destruct (ps ++ [f]) as [| g l] eqn:E.
  - destruct ps; discriminate E.
  - rewrite <- E, removelast_last. reflexivity.
Qed.

(** X10.  A pop undoes the push at the same end: pushing a value or a raw
    buffer at the front and popping the front, or appending one and popping
    the back, gives the message back as it was, frames and cursor; when the
    push does not return, neither does the pair. *)
Theorem pop_undoes_push p content bytes n m :
  (push_front_value p content m ≫= pop_front)
  = (push_front_value p content m ≫= fun _ => Returns m)
  /\ (stream_insert p content m ≫= pop_back)
     = (stream_insert p content m ≫= fun _ => Returns m)
  /\ (push_front bytes n m ≫= pop_front)
     = (push_front bytes n m ≫= fun _ => Returns m)
  /\ (push_back bytes n m ≫= pop_back)
     = (push_back bytes n m ≫= fun _ => Returns m).
Proof.
  repeat split.
  - destruct (push_front_value p content m) as [m' | | |] eqn:H; try reflexivity.
    apply push_front_value_prepends in H as [f ->]. apply pop_front_emplace_front.
  - destruct (stream_insert p content m) as [m' | | |] eqn:H; try reflexivity.
    apply stream_insert_appends in H as [f ->]. apply pop_back_emplace_back.
  - destruct (push_front bytes n m) as [m' | | |] eqn:H; try reflexivity.
    apply push_front_prepends in H as [f ->]. apply pop_front_emplace_front.
  - unfold push_back.
    destruct (add_raw bytes n m) as [m' | | |] eqn:H; try reflexivity.
    apply add_raw_appends in H as [f ->]. apply pop_back_emplace_back.
Qed.

Lemma removelast_delete {A} (l : list A) :
  removelast l = delete (length l - 1)%nat l.
Proof.
  induction l as [| a [| b l] IH]; try reflexivity.
  cbn [removelast length] in *. rewrite IH.
  replace (S (S (length l)) - 1)%nat with (S (S (length l) - 1)) by lia.
  reflexivity.
Qed.

(** X11.  [pop_front()] is [remove(0)] and [pop_back()] is [remove] of the
    last index, on every message; on the empty message all four are
    undefined behaviour. *)
Theorem pops_are_removes m :
  pop_front m = remove 0 m
  /\ pop_back m = remove (length (_parts m) - 1) m
  /\ (parts m = 0 -> pop_front m = Undefined /\ pop_back m = Undefined).
Proof.
  destruct m as [ps c]. unfold pop_front, pop_back, remove, parts.
  cbn [_parts _read_cursor]. destruct ps as [| f ps].
  - repeat split; reflexivity.
  - rewrite !decide_True by (cbn [length]; lia).
    split; [reflexivity |]. split.
    + rewrite removelast_delete. reflexivity.
    + intros H. cbn [length] in H. lia.
Qed.

(** *** Queue operations under the read cursor *)

(** X12.  Queue operations do not move the read cursor, so a push at the
    front puts the part read last back under it: with [k > 0] parts read,
    the extraction after a [push_front] decodes the part that was at index
    [k - 1], and the pushed frame is part 0. *)
Theorem push_front_rewinds_stream p q T content m m' :
  0 < read_cursor m ->
  push_front_value p content m = Returns m' ->
  snd (stream_extract q T m') = get q T m (Z.to_nat (read_cursor m - 1))
  /\ read_cursor m' = read_cursor m
  /\ (forall i, _parts m' !! S i = _parts m !! i).
Proof.
  intros Hk H. apply push_front_value_prepends in H as [f ->].
  unfold read_cursor, stream_extract in *. cbn [snd emplace_front _parts _read_cursor].
  split; [| split; [reflexivity | reflexivity]].
  apply get_ext. cbn [_parts].
  replace (Z.to_nat (_read_cursor m)) with (S (Z.to_nat (_read_cursor m - 1)))
    by lia.
  reflexivity.
Qed.

Lemma push_front_rewinds_stream_witness :
  let m := Message [frame_of_bytes [1]; frame_of_bytes [2]] 1 in
  let m' := Message [frame_of_bytes [9]; frame_of_bytes [1]; frame_of_bytes [2]] 1 in
  0 < read_cursor m
  /\ push_front_value linux_amd64 (i_uint8 9) m = Returns m'
  /\ snd (stream_extract linux_amd64 g_uint8_t m')
     = get linux_amd64 g_uint8_t m (Z.to_nat (read_cursor m - 1))
  /\ read_cursor m' = read_cursor m
  /\ (forall i, _parts m' !! S i = _parts m !! i).
Proof.
  cbv zeta.
  assert (Hk : 0 < read_cursor (Message [frame_of_bytes [1]; frame_of_bytes [2]] 1))
    by (unfold read_cursor; cbn [_read_cursor]; lia).
  split; [exact Hk |]. split; [reflexivity |].
  apply (push_front_rewinds_stream linux_amd64 linux_amd64 g_uint8_t (i_uint8 9));
    [exact Hk | reflexivity].
Defined.

(** X13.  Removing a part at or below the read cursor makes the stream
    skip one: after [remove(i)] the next extraction decodes the part that
    was at index cursor + 1 when [i <= cursor], and the part at the cursor
    when [i > cursor]. *)
Theorem remove_shifts_stream q T i m m' :
  0 <= read_cursor m ->
  remove i m = Returns m' ->
  snd (stream_extract q T m')
  = get q T m (if decide (i <= Z.to_nat (read_cursor m))%nat
               then S (Z.to_nat (read_cursor m))
               else Z.to_nat (read_cursor m)).
Proof.
  intros Hk H. unfold remove in H.
  destruct (decide (i < length (_parts m))%nat) as [Hi |]; [| discriminate H].
  injection H as <-. unfold read_cursor, stream_extract.
  cbn [snd _parts _read_cursor]. apply get_ext. cbn [_parts].
  destruct (decide (i <= Z.to_nat (_read_cursor m))%nat) as [Hle | Hgt].
  - apply list_lookup_delete_ge, Hle.
  - apply list_lookup_delete_lt. lia.
Qed.

Lemma remove_shifts_stream_witness :
  let m := Message [frame_of_bytes [1]; frame_of_bytes [2]; frame_of_bytes [3]] 1 in
  let m' := Message [frame_of_bytes [2]; frame_of_bytes [3]] 1 in
  0 <= read_cursor m
  /\ remove 0 m = Returns m'
  /\ snd (stream_extract linux_amd64 g_uint8_t m')
     = get linux_amd64 g_uint8_t m
         (if decide (0 <= Z.to_nat (read_cursor m))%nat
          then S (Z.to_nat (read_cursor m))
          else Z.to_nat (read_cursor m)).
Proof.
  cbv zeta.
  assert (Hk : 0 <= read_cursor (Message [frame_of_bytes [1]; frame_of_bytes [2];
                                         frame_of_bytes [3]] 1))
    by (unfold read_cursor; cbn [_read_cursor]; lia).
  split; [exact Hk |]. split; [reflexivity |].
  apply (remove_shifts_stream linux_amd64 g_uint8_t 0); [exact Hk | reflexivity].
Defined.

(** X14.  A failed extraction costs the next frame: after [m >> x] has
    thrown on a message read to its end, a value inserted next lands below
    the cursor, so the extraction that follows throws the out-of-range
    exception as well instead of decoding it. *)
Theorem failed_extract_hides_next_frame p T T' content m m2 :
  well_formed m ->
  read_cursor m = parts m ->
  supported T' ->
  stream_insert p content (fst (stream_extract p T m)) = Returns m2 ->
  snd (stream_extract p T' m2) = Throws part_out_of_range
  /\ read_cursor m2 = parts m2
  /\ _parts m2 !! Z.to_nat (parts m) <> None.
Proof.
  intros [Hc Hp] Hend HT' H. unfold read_cursor, parts in *.
  apply stream_insert_appends in H as [f ->].
  unfold stream_extract. cbn [fst snd emplace_back _parts _read_cursor].
  rewrite Hend.
  rewrite !(size_t_small (Z.of_nat (length (_parts m)) + 1)) by lia.
  split; [| split].
  - apply get_out_of_range; [exact HT' |]. cbn [_parts].
    rewrite length_app. cbn [length]. lia.
  - rewrite length_app. cbn [length]. lia.
  - rewrite Nat2Z.id, list_lookup_middle by reflexivity. discriminate.
Qed.

Lemma failed_extract_hides_next_frame_witness :
  let p := linux_amd64 in
  let m2 := Message [frame_of_bytes [7]] 1 in
  well_formed empty_message
  /\ read_cursor empty_message = parts empty_message
  /\ supported g_uint8_t
  /\ stream_insert p (i_uint8 7) (fst (stream_extract p g_string empty_message))
     = Returns m2
  /\ snd (stream_extract p g_uint8_t m2) = Throws part_out_of_range
  /\ read_cursor m2 = parts m2
  /\ _parts m2 !! Z.to_nat (parts empty_message) <> None.
Proof.
  cbv zeta.
  assert (Hw : well_formed empty_message)
    by (unfold well_formed, parts; cbn [_parts _read_cursor empty_message length]; lia).
  assert (HT : supported g_uint8_t) by (unfold supported; discriminate).
  split; [exact Hw |]. split; [reflexivity |]. split; [exact HT |].
  split; [reflexivity |].
  apply (failed_extract_hides_next_frame linux_amd64 g_string g_uint8_t (i_uint8 7));
    [exact Hw | reflexivity | exact HT | reflexivity].
Defined.

(** *** Copies *)

(** X15.  [copy(source)] always returns, whatever the destination held: the
    copy has the source's part count and read cursor, and every typed
    access to it gives what the same access to the source gives; so does
    [copy()] on a new message. *)
Theorem copy_reads_like_source p source m :
  exists m',
    copy source m = Returns m'
    /\ copy_out source = Returns m'
    /\ parts m' = parts source
    /\ read_cursor m' = read_cursor source
    /\ (forall T i, get p T m' i = get p T source i)
    /\ (forall i, size m' i = size source i).
Proof.
  eexists. split; [apply copy_duplicates |].
  split; [apply copy_duplicates |].
  unfold parts, read_cursor. cbn [_parts _read_cursor].
  split; [rewrite length_map; reflexivity |]. split; [reflexivity |].
  split.
  - intros T i. destruct (_parts source !! i) as [f |] eqn:Hf.
    + apply (get_same_bytes p T _ i source i (frame_copy f) f);
        [| exact Hf | reflexivity].
      cbn [_parts]. rewrite list_lookup_fmap, Hf. reflexivity.
    + apply get_ext. cbn [_parts]. rewrite list_lookup_fmap, Hf. reflexivity.
  - intros i. unfold size. cbn [_parts]. rewrite length_map.
    destruct (decide (length (_parts source) <= i)%nat); [reflexivity |].
    unfold at_index. rewrite list_lookup_fmap.
    destruct (_parts source !! i); reflexivity.
Qed.

(** *** Marking parts as sent *)



(** *** Signals on the stream *)

(** X17.  Inserting a signal makes a message of one 8-byte part that
    [get<signal>] reads back as the same value, and [is_signal()] is true
    of it exactly when the value shifted right by 8 is the header; the
    message is the one inserting the value as a plain [int64_t] makes, which
    [is_signal()] therefore treats alike. *)
Theorem inserted_signal_is_recognised header p q sig :
  signed_range 64 sig ->
  exists m,
    stream_insert p (i_signal sig) empty_message = Returns m
    /\ stream_insert p (i_scalar (s_int int64_t sig)) empty_message = Returns m
    /\ parts m = 1
    /\ size m 0 = Returns 8%nat
    /\ get q g_signal m 0 = Returns (v_signal sig)
    /\ is_signal header q m = Returns (bool_decide (Z.shiftr sig 8 = header)).
Proof.
  intros Hr. eexists. split; [apply stream_insert_frame; exact I |].
  split; [apply (stream_insert_frame p (i_scalar (s_int int64_t sig))); exact I |].
  cbn [inserted_bytes]. unfold emplace_back, empty_message.
  cbn [_parts _read_cursor app]. split; [reflexivity |]. split; [| split].
  - rewrite (size_in_range _ 0 (frame_of_bytes (be_bytes 8 (to_unsigned 64 sig))))
      by reflexivity.
    unfold frame_size. cbn [frame_of_bytes frame_bytes].
    rewrite be_bytes_length. reflexivity.
  - apply (get_read_back q (i_signal sig)); [exact Hr | reflexivity].
  - rewrite is_signal_one_frame.
    + cbn [frame_of_bytes frame_bytes]. rewrite be_value_be_bytes.
      change (2 ^ (8 * Z.of_nat 8)) with (2 ^ 64).
      fold (to_unsigned 64 (to_unsigned 64 sig)).
      rewrite (to_unsigned_small 64 (to_unsigned 64 sig))
        by (apply to_unsigned_range; lia).
      rewrite to_signed_to_unsigned by (lia || exact Hr). reflexivity.
    + unfold frame_size. cbn [frame_of_bytes frame_bytes]. apply be_bytes_length.
    + apply be_bytes_are_bytes.
Qed.

Lemma inserted_signal_is_recognised_witness :
  let header := 0x77665544332211 in
  let sig := 0x7766554433221102 in
  signed_range 64 sig
  /\ exists m,
       stream_insert linux_amd64 (i_signal sig) empty_message = Returns m
       /\ stream_insert linux_amd64 (i_scalar (s_int int64_t sig)) empty_message
          = Returns m
       /\ parts m = 1
       /\ size m 0 = Returns 8%nat
       /\ get portable_be32 g_signal m 0 = Returns (v_signal sig)
       /\ is_signal header portable_be32 m
          = Returns (bool_decide (Z.shiftr sig 8 = header)).
Proof.
  cbv zeta.
  assert (H : signed_range 64 0x7766554433221102) by (unfold signed_range; lia).
  split; [exact H |]. apply inserted_signal_is_recognised. exact H.
Defined.

(** *** [extract] and the range of parts *)

Lemma extract_no_range_error p Ts : forall part T m,
  ndebug p = false ->
  extract p part T Ts m <> Throws part_out_of_range.
Proof.
  induction Ts as [| T' Ts IH]; intros part T m Hd; cbn [extract];
    unfold assert; rewrite Hd; cbn [mbind outcome_bind];
    destruct (bool_decide (Z.of_nat part < parts m)) eqn:Hb;
    cbn [mbind outcome_bind]; try discriminate;
    apply bool_decide_eq_true_1 in Hb; unfold parts in Hb;
    destruct (lookup_lt_is_Some_2 (_parts m) part ltac:(lia)) as [f Hf];
    pose proof (get_in_range_no_range_error p T m part f Hf) as Hg;
    destruct (get p T m part) as [v | e | |]; cbn [mbind outcome_bind];
    try discriminate;
    try (intros E; injection E as E; apply Hg; rewrite E; reflexivity).
  specialize (IH (S part) T' m Hd).
  destruct (extract p (S part) T' Ts m); cbn [mbind outcome_bind];
    try discriminate; exact IH.
Qed.

(** X18.  [extract] guards each index with an assert.  In a build that has
    the asserts it never ends in the out-of-range exception, whatever the
    types and the message, and a first index not below [parts()] makes it
    fail the assert; in a build with [NDEBUG] the guard is gone and the same
    call ends in the out-of-range exception that [get] throws. *)
Theorem extract_asserts_the_range p part T Ts m :
  (ndebug p = false ->
   extract p part T Ts m <> Throws part_out_of_range
   /\ (Z.of_nat part < parts m \/ extract p part T Ts m = Aborts))
  /\ (ndebug p = true -> supported T -> parts m <= Z.of_nat part ->
      extract p part T Ts m = Throws part_out_of_range).
Proof.
  split.
  - intros Hd. split; [apply extract_no_range_error, Hd |].
    destruct (Z_lt_le_dec (Z.of_nat part) (parts m)) as [Hlt | Hge];
      [left; exact Hlt | right].
    destruct Ts; cbn [extract];
      (rewrite assert_fails;
       [reflexivity | exact Hd | rewrite bool_decide_eq_false_2 by lia; reflexivity]).
  - intros Hd HT Hge. unfold parts in Hge.
    destruct Ts; cbn [extract];
      rewrite assert_compiled_out by exact Hd; cbn [mbind outcome_bind];
      rewrite get_out_of_range by (exact HT || lia); reflexivity.
Qed.

Lemma extract_asserts_the_range_witness :
  extract linux_amd64 0 g_int [g_string] empty_message = Aborts
  /\ extract linux_amd64_ndebug 0 g_int [g_string] empty_message
     = Throws part_out_of_range.
Proof.
  split.
  - destruct (extract_asserts_the_range linux_amd64 0 g_int [g_string]
                empty_message) as [Hd _].
    destruct (Hd eq_refl) as [_ [Hlt | Ha]]; [| exact Ha].
    exfalso. unfold parts in Hlt. cbn [_parts empty_message length] in Hlt. lia.
  - apply (extract_asserts_the_range linux_amd64_ndebug 0 g_int [g_string]
             empty_message);
      [reflexivity | unfold supported; discriminate
      | unfold parts; cbn [_parts empty_message length]; lia].
Defined.

(** *** [remaining()] *)

Lemma guarded_reachable_cursor p m :
  guarded_reachable p m -> 0 <= _read_cursor m <= parts m.
Proof.
  induction 1 as [| m op m' _ IHm _ IHo Hg Hstep].
  - unfold parts. cbn. lia.
  - apply (guarded_step_keeps_cursor p op m m'); assumption.
Qed.

(** X19.  In the states reached by guarded use (extraction, [next], pops
    and [remove] only while the cursor is below [parts()]), [remaining()]
    is the number of unread parts, [parts()] minus the cursor; the next
    extraction throws the out-of-range exception exactly when it is 0, and
    an extraction made while it is positive lowers it by one. *)
Theorem remaining_counts_unread p T m :
  guarded_reachable p m ->
  parts m < 2 ^ 64 ->
  supported T ->
  remaining m = parts m - read_cursor m
  /\ (snd (stream_extract p T m) = Throws part_out_of_range
      <-> remaining m = 0)
  /\ (0 < remaining m ->
      remaining (fst (stream_extract p T m)) = remaining m - 1).
Proof.
  intros Hm Hfit HT. apply guarded_reachable_cursor in Hm.
  unfold remaining, read_cursor, stream_extract.
  cbn [fst snd _parts _read_cursor].
  assert (Hp : parts (Message (_parts m) (size_t (_read_cursor m + 1))) = parts m)
    by reflexivity.
  rewrite Hp. rewrite (size_t_small (parts m - _read_cursor m)) by lia.
  split; [reflexivity |]. split.
  - split.
    + intros Hthrow.
      destruct (_parts m !! Z.to_nat (_read_cursor m)) as [f |] eqn:Hf.
      * exfalso.
        eapply (get_in_range_no_range_error p T _ _ f); [| exact Hthrow].
        exact Hf.
      * apply lookup_ge_None_1 in Hf. unfold parts in *. lia.
    + intros H0. apply get_out_of_range; [exact HT |].
      cbn [_parts]. unfold parts in *. lia.
  - intros Hpos. rewrite (size_t_small (_read_cursor m + 1)) by lia.
    rewrite size_t_small by lia. lia.
Qed.

Lemma remaining_counts_unread_witness :
  let p := linux_amd64 in
  let m := Message [frame_of_bytes [42]; frame_of_bytes [43]] 1 in
  guarded_reachable p m
  /\ parts m < 2 ^ 64
  /\ supported g_uint8_t
  /\ remaining m = parts m - read_cursor m
  /\ (snd (stream_extract p g_uint8_t m) = Throws part_out_of_range
      <-> remaining m = 0)
  /\ (0 < remaining m ->
      remaining (fst (stream_extract p g_uint8_t m)) = remaining m - 1).
Proof.
  cbv zeta.
  assert (H : guarded_reachable linux_amd64
                (Message [frame_of_bytes [42]; frame_of_bytes [43]] 1)).
  { apply (guarded_step linux_amd64
             (Message [frame_of_bytes [42]; frame_of_bytes [43]] 0)
             (op_extract g_uint8_t)).
    - apply (guarded_step linux_amd64 (Message [frame_of_bytes [42]] 0)
               (op_insert (i_uint8 43))).
      + apply (guarded_step linux_amd64 empty_message (op_insert (i_uint8 42))).
        * apply guarded_empty.
        * intros o Ho. discriminate Ho.
        * exact I.
        * reflexivity.
      + intros o Ho. discriminate Ho.
      + exact I.
      + reflexivity.
    - intros o Ho. discriminate Ho.
    - unfold guarded, parts. cbn [_read_cursor _parts length]. lia.
    - reflexivity. }
  assert (Hf : parts (Message [frame_of_bytes [42]; frame_of_bytes [43]] 1) < 2 ^ 64)
    by (unfold parts; cbn [_parts length]; lia).
  assert (HT : supported g_uint8_t) by (unfold supported; discriminate).
  split; [exact H |]. split; [exact Hf |]. split; [exact HT |].
  apply remaining_counts_unread; [exact H | exact Hf | exact HT].
Defined.

(** *** Strings at the front *)

(** X20.  [push_front] of a [std::string] keeps every byte of it, NUL bytes
    included: the new part 0 has the string's size and [get<std::string>]
    reads the whole string back; [push_front] of a terminated C string
    makes a part of the bytes before the terminator. *)
Theorem push_front_keeps_whole_string p q s c_string m :
  (exists m',
     push_front_value p (i_string s) m = Returns m'
     /\ size m' 0 = Returns (length s)
     /\ get q g_string m' 0 = Returns (v_string s))
  /\ (In 0 c_string ->
      exists m',
        push_front_value p (i_c_string c_string) m = Returns m'
        /\ get q g_string m' 0 = Returns (v_string (until_nul c_string))).
Proof.
  split.
  - eexists. split; [apply push_front_string_keeps_all |].
    split; [reflexivity |]. cbn [get].
    assert (Hf : _parts (emplace_front (frame_of_bytes s) m) !! 0%nat
                 = Some (frame_of_bytes s)) by reflexivity.
    in_range Hf. unfold frame_size. cbn [frame_of_bytes frame_bytes].
    rewrite firstn_all. reflexivity.
  - intros H. eexists. split.
    + cbn [push_front_value]. unfold push_front_c_string.
      rewrite (strlen_until_nul _ H). cbn [defined mbind outcome_bind].
      unfold push_front. destruct (until_nul_prefix c_string) as [Ht Hl].
      rewrite decide_True by exact Hl. rewrite Ht. reflexivity.
    + cbn [get].
      assert (Hf : _parts (emplace_front (frame_of_bytes (until_nul c_string)) m)
                     !! 0%nat
                   = Some (frame_of_bytes (until_nul c_string))) by reflexivity.
      in_range Hf. unfold frame_size. cbn [frame_of_bytes frame_bytes].
      rewrite firstn_all. reflexivity.
Qed.

(** *** Moving there and back *)

(** X21.  Move assignment is an exchange, so moving a message into another
    and then back restores it, frames and cursor; the other message ends
    with the frames it had and its cursor reset to 0. *)
Theorem move_there_and_back d m :
  fst (move_assign (snd (move_assign d m)) (fst (move_assign d m))) = m
  /\ snd (move_assign (snd (move_assign d m)) (fst (move_assign d m)))
     = reset_read_cursor d.
Proof. destruct m as [ps c], d as [qs k]. split; reflexivity. Qed.

(** *** Scalars and raw buffers at either end *)

(** X22.  The template [push_front] puts the big-endian frame of a scalar at
    index 0, where [get<T>] reads the value back on any target, and moves
    every other part up by one without touching the cursor. *)
Theorem push_front_scalar_round_trip p q x m :
  representable x ->
  exists m',
    push_front_value p (i_scalar x) m = Returns m'
    /\ get q (target_of (type_of x)) m' 0 = Returns (v_scalar x)
    /\ parts m' = parts m + 1
    /\ read_cursor m' = read_cursor m
    /\ (forall T i, get q T m' (S i) = get q T m i).
Proof.
  intros Hx. eexists. split; [apply push_front_scalar_frame |].
  split; [| split; [apply parts_emplace_front | split; [reflexivity |]]].
  - rewrite get_target_of, (get_scalar_written q x _ 0 Hx) by reflexivity.
    reflexivity.
  - intros T i. apply get_ext. reflexivity.
Qed.

Lemma push_front_scalar_round_trip_witness :
  let x := s_int uint16_t 513 in
  representable x
  /\ exists m',
       push_front_value linux_amd64 (i_scalar x) empty_message = Returns m'
       /\ get portable_be32 (target_of (type_of x)) m' 0 = Returns (v_scalar x)
       /\ parts m' = parts empty_message + 1
       /\ read_cursor m' = read_cursor empty_message
       /\ (forall T i, get portable_be32 T m' (S i)
                       = get portable_be32 T empty_message i).
Proof.
  cbv zeta.
  assert (H : representable (s_int uint16_t 513))
    by (cbn; unfold unsigned_range; lia).
  split; [exact H |]. apply push_front_scalar_round_trip. exact H.
Defined.

(** X23.  [push_back(content, size)] and [push_front(content, size)] copy
    exactly [size] bytes, NUL bytes and all: the new part, last or first,
    has that size, and [get<std::string>] returns those bytes. *)
Theorem raw_bytes_round_trip q content n m :
  (n <= length content)%nat ->
  (exists m',
     push_back content n m = Returns m'
     /\ size m' (length (_parts m)) = Returns n
     /\ get q g_string m' (length (_parts m))
        = Returns (v_string (take n content)))
  /\ (exists m',
        push_front content n m = Returns m'
        /\ size m' 0 = Returns n
        /\ get q g_string m' 0 = Returns (v_string (take n content))).
Proof.
  intros Hn.
  assert (Hl : length (take n content) = n) by (rewrite length_take; lia).
  split; eexists.
  - split; [unfold push_back, add_raw; rewrite decide_True by exact Hn; reflexivity |].
    assert (Hf : _parts (emplace_back (frame_of_bytes (take n content)) m)
                   !! length (_parts m)
                 = Some (frame_of_bytes (take n content)))
      by (apply list_lookup_middle; reflexivity).
    cbn [get]. in_range Hf. unfold frame_size. cbn [frame_of_bytes frame_bytes].
    rewrite Hl, firstn_all2 by lia. split; reflexivity.
  - split; [unfold push_front; rewrite decide_True by exact Hn; reflexivity |].
    assert (Hf : _parts (emplace_front (frame_of_bytes (take n content)) m) !! 0%nat
                 = Some (frame_of_bytes (take n content))) by reflexivity.
    cbn [get]. in_range Hf. unfold frame_size. cbn [frame_of_bytes frame_bytes].
    rewrite Hl, firstn_all2 by lia. split; reflexivity.
Qed.

Lemma raw_bytes_round_trip_witness :
  let content := [116; 0; 115; 116; 115; 0] in
  (3 <= length content)%nat
  /\ (exists m',
        push_back content 3 empty_message = Returns m'
        /\ size m' (length (_parts empty_message)) = Returns 3%nat
        /\ get linux_amd64 g_string m' (length (_parts empty_message))
           = Returns (v_string (take 3 content)))
  /\ (exists m',
        push_front content 3 empty_message = Returns m'
        /\ size m' 0 = Returns 3%nat
        /\ get linux_amd64 g_string m' 0 = Returns (v_string (take 3 content))).
Proof.
  cbv zeta.
  assert (H : (3 <= length [116; 0; 115; 116; 115; 0])%nat) by (cbn; lia).
  split; [exact H |]. apply raw_bytes_round_trip. exact H.
Defined.

(** *** The size a typed access expects *)

Ltac expose_bytes H :=
  repeat match type of H with
    | (S _ <= length ?l)%nat =>
        destruct l as [| ? ?]; cbn [length] in H; [lia | apply le_S_n in H]
    end.

(** [from_be<T>] reads the first [sizeof(T)] bytes and no other. *)
Lemma from_be_prefix q T bs :
  (sizeof T <= length bs)%nat ->
  from_be q T (ByteIter (take (sizeof T) bs) 0) = from_be q T (ByteIter bs 0).
Proof.
  intros H. destruct T as [[] | |]; cbn [sizeof int_bytes] in *;
    expose_bytes H; reflexivity.
Qed.

Lemma frame_width_fits T w content :
  frame_width T = Some w -> length content = w -> fits T content.
Proof.
  intros Hw Hl. destruct T; cbn [frame_width fits] in *;
    try discriminate Hw; injection Hw as <-; exact Hl.
Qed.

(** X24.  The fixed-width specialisations of [get<T>] guard the decoding
    with an assert on the size of the frame.  On a part whose size is the
    width of [T], [get<T>] returns the decoding of its content.  On a part
    of any other size it fails the assert in a build that has the asserts;
    in a build with [NDEBUG] it decodes all the same: a frame that is too
    long gives the decoding of its leading bytes, and on a frame that is too
    short the read runs past the end of the content, which is undefined
    behaviour. *)
Theorem get_checks_frame_size p T m part f w :
  _parts m !! part = Some f ->
  frame_width T = Some w ->
  Forall is_byte (frame_bytes f) ->
  (frame_size f = w ->
   exists v, spec_decode p T (frame_bytes f) = Some v
             /\ get p T m part = Returns v)
  /\ (frame_size f <> w -> ndebug p = false -> get p T m part = Aborts)
  /\ ((frame_size f < w)%nat -> ndebug p = true -> get p T m part = Undefined)
  /\ ((w < frame_size f)%nat -> ndebug p = true ->
      exists v, spec_decode p T (take w (frame_bytes f)) = Some v
                /\ get p T m part = Returns v).
Proof.
  intros Hf Hw Hb. split; [| split; [| split]].
  - intros Hsize.
    destruct (fits_decodes p T (frame_bytes f)
                (frame_width_fits T w _ Hw Hsize)) as [v Hv].
    exists v. split; [exact Hv |]. apply (get_decodes p T m part f v Hf Hb Hv).
  - intros Hsize Hd.
    destruct T; cbn [frame_width] in Hw; try discriminate Hw;
      injection Hw as <-; cbn [get]; unfold get_int64, get_scalar, get_byte;
      in_range Hf;
      (rewrite bool_decide_eq_false_2 by (intros E; apply Hsize; symmetry; exact E));
      rewrite assert_fails by (exact Hd || reflexivity);
      reflexivity.
  - intros Hsize Hd. unfold frame_size in Hsize.
    destruct T; cbn [frame_width] in Hw; try discriminate Hw;
      injection Hw as <-; cbn [get]; unfold get_int64, get_scalar, get_byte;
      rewrite assert_compiled_out by exact Hd; in_range Hf;
      try (destruct (frame_bytes f) as [| b ?]; [reflexivity | cbn in Hsize; lia]);
      rewrite from_be_short by (cbn; lia); reflexivity.
  - intros Hsize Hd. unfold frame_size in Hsize.
    set (g := frame_of_bytes (take w (frame_bytes f))).
    assert (H0 : _parts (Message [g] 0) !! 0%nat = Some g) by reflexivity.
    assert (Hcut : get p T m part = get p T (Message [g] 0) 0).
    { subst g.
      destruct T; cbn [frame_width] in Hw; try discriminate Hw;
        injection Hw as <-; cbn [get]; unfold get_int64, get_scalar, get_byte;
        rewrite !assert_compiled_out by exact Hd; in_range Hf; in_range H0;
        cbn [frame_of_bytes frame_bytes];
        try (destruct (frame_bytes f) as [| b ?]; [cbn in Hsize; lia | reflexivity]);
        match goal with
        | |- context [from_be p ?S (ByteIter (take ?n ?bs) 0)] =>
            let E := fresh "E" in
            assert (E : (sizeof S <= length bs)%nat) by (cbn; lia);
            apply (from_be_prefix p S bs) in E;
            cbn [sizeof int_bytes] in E; rewrite E
        end;
        reflexivity. }
    assert (Hl : length (frame_bytes g) = w)
      by (subst g; cbn [frame_of_bytes frame_bytes]; rewrite length_take; lia).
    destruct (fits_decodes p T (frame_bytes g) (frame_width_fits T w _ Hw Hl))
      as [v Hv].
    exists v. split; [exact Hv |]. rewrite Hcut.
    apply (get_decodes p T _ 0 g v H0); [| exact Hv].
    subst g. cbn [frame_of_bytes frame_bytes]. apply Forall_take. exact Hb.
Qed.

Lemma get_checks_frame_size_witness :
  let f := frame_of_bytes [0; 0; 42] in
  let g := frame_of_bytes [0; 0; 0; 42; 7] in
  let h := frame_of_bytes [255; 255; 255; 254] in
  let m := Message [f; g; h] 0 in
  frame_width g_int = Some 4%nat
  /\ bytes_ok m
  /\ get linux_amd64 g_int m 0 = Aborts
  /\ get linux_amd64_ndebug g_int m 0 = Undefined
  /\ get linux_amd64 g_int m 1 = Aborts
  /\ get linux_amd64_ndebug g_int m 1 = Returns (v_scalar (s_int int32_t 42))
  /\ get linux_amd64 g_int m 2 = Returns (v_scalar (s_int int32_t (-2)))
  /\ get linux_amd64_ndebug g_int m 2 = Returns (v_scalar (s_int int32_t (-2))).
Proof.
  cbv zeta.
  assert (Hok : bytes_ok (Message [frame_of_bytes [0; 0; 42];
                                   frame_of_bytes [0; 0; 0; 42; 7];
                                   frame_of_bytes [255; 255; 255; 254]] 0)).
  { unfold bytes_ok, is_byte. cbn [_parts frame_of_bytes frame_bytes].
    repeat constructor; lia. }
  pose proof Hok as Hb. unfold bytes_ok in Hb. rewrite Forall_lookup in Hb.
  split; [reflexivity |]. split; [exact Hok |].
  pose proof (fun p part f Hf =>
                get_checks_frame_size p g_int
                  (Message [frame_of_bytes [0; 0; 42];
                            frame_of_bytes [0; 0; 0; 42; 7];
                            frame_of_bytes [255; 255; 255; 254]] 0)
                  part f 4 Hf eq_refl (Hb part f Hf)) as H.
  destruct (H linux_amd64 0%nat _ eq_refl) as (_ & Ha0 & _).
  destruct (H linux_amd64_ndebug 0%nat _ eq_refl) as (_ & _ & Hu0 & _).
  destruct (H linux_amd64 1%nat _ eq_refl) as (_ & Ha1 & _).
  destruct (H linux_amd64_ndebug 1%nat _ eq_refl) as (_ & _ & _ & Hl1).
  destruct (H linux_amd64 2%nat _ eq_refl) as (Hr2 & _).
  destruct (H linux_amd64_ndebug 2%nat _ eq_refl) as (Hr2' & _).
  split; [apply Ha0; [discriminate | reflexivity] |].
  split; [apply Hu0; [cbn; lia | reflexivity] |].
  split; [apply Ha1; [discriminate | reflexivity] |].
  split.
  { destruct Hl1 as (v & Hv & ->); [cbn; lia | reflexivity |].
    injection Hv as <-. reflexivity. }
  split.
  { destruct Hr2 as (v & Hv & ->); [reflexivity |].
    injection Hv as <-. reflexivity. }
  destruct Hr2' as (v & Hv & ->); [reflexivity |].
  injection Hv as <-. reflexivity.
Defined.

End MessageLaws.

(** ** The cases of the test suite, run on the model *)

Module Tests.
Import CInt Endian Wire Message.

(** [test_endian.cpp], [to_BE_64bit], on both targets *)
Example to_BE_64bit :
  forall p, p = linux_amd64 \/ p = portable_be32 ->
  it_buf <$> to_be p (s_int uint64_t 0xdeadbeef10204080)
                     (ByteIter [0; 0; 0; 0; 0; 0; 0; 0] 0)
  = Some [0xde; 0xad; 0xbe; 0xef; 0x10; 0x20; 0x40; 0x80].
Proof. intros p [-> | ->]; reflexivity. Qed.

(** [test_endian.cpp], [roundtrippable_64bit] *)
Example roundtrippable_64bit :
  (dst ← to_be linux_amd64 (s_int uint64_t 0xdeadbeef10204080)
           (ByteIter [0; 0; 0; 0; 0; 0; 0; 0] 0);
   from_be linux_amd64 (t_int uint64_t) (ByteIter (it_buf dst) 0))
  = Some (s_int uint64_t 0xdeadbeef10204080).
Proof. reflexivity. Qed.

(** [test_message.cpp], [throws_exception_reading_invalid_part] *)
Example throws_exception_reading_invalid_part :
  get linux_amd64 g_int empty_message 0 = Throws part_out_of_range.
Proof. reflexivity. Qed.

(** [test_message.cpp], [stream_throws_exception] *)
Example stream_throws_exception :
  snd (stream_extract linux_amd64 g_string empty_message)
  = Throws part_out_of_range.
Proof. reflexivity. Qed.

(** [test_message.cpp], [stream_multiple_parts]:
    [msg << "test part"; msg << 42; msg >> part1; msg >> part2;] *)
Example stream_multiple_parts :
  forall m1 m2,
  stream_insert linux_amd64 (i_c_string (literal "test part")) empty_message
  = Returns m1 ->
  stream_insert linux_amd64 (i_scalar (s_int int32_t 42)) m1 = Returns m2 ->
  parts m2 = 2
  /\ snd (stream_extract linux_amd64 g_string m2)
     = Returns (v_string (bytes_of "test part"))
  /\ snd (stream_extract linux_amd64 g_unsigned_int
            (fst (stream_extract linux_amd64 g_string m2)))
     = Returns (v_scalar (s_int uint32_t 42)).
Proof.
  intros m1 m2 H1 H2. vm_compute in H1. injection H1 as <-.
  vm_compute in H2. injection H2 as <-. repeat split.
Qed.

(** [test_message.cpp], [move_assignment_supporting]:
    [first("string"); second("blah"); second = std::move(first);] *)
Example move_assignment_supporting :
  let first := Message [frame_of_bytes (bytes_of "string")] 0 in
  let second := Message [frame_of_bytes (bytes_of "blah")] 0 in
  parts (fst (move_assign second first)) = 1
  /\ read_cursor (snd (move_assign second first)) = 0
  /\ _parts (snd (move_assign second first))
     = [frame_of_bytes (bytes_of "blah")].
Proof. repeat split. Qed.

(** [test_message.cpp], [move_construction_supporting], the read cursor:
    [boap >> test; message boap2(std::move(boap)); boap2 >> test;] *)
Example move_construction_supporting :
  forall indeterminate,
  let boap := Message [frame_of_bytes (bytes_of "string");
                       frame_of_bytes (bytes_of "string2")] 0 in
  let boap' := fst (stream_extract linux_amd64 g_string boap) in
  let boap2 := fst (move_construct indeterminate boap') in
  snd (stream_extract linux_amd64 g_string boap2)
  = Returns (v_string (bytes_of "string2"))
  /\ parts (snd (move_construct indeterminate boap')) = 0.
Proof. intros indeterminate. repeat split. Qed.

(** [test_message.cpp], [remove]: part 1 of three *)
Example remove_middle_part :
  let f1 := frame_of_bytes (bytes_of "a long test frame 1") in
  let f2 := frame_of_bytes (bytes_of "another frame 2") in
  let f3 := frame_of_bytes (bytes_of "some final frame 3") in
  remove 1 (Message [f1; f2; f3] 0) = Returns (Message [f1; f3] 0).
Proof. reflexivity. Qed.

(** [test_message.cpp], [push_front_of_frame_queue] and
    [pop_front_of_frame_queue] *)
Example push_then_pop_front :
  let f2 := frame_of_bytes (bytes_of "another frame 2") in
  let m := Message [f2] 0 in
  push_front_value linux_amd64 (i_string (bytes_of "frame 1")) m
  = Returns (Message [frame_of_bytes (bytes_of "frame 1"); f2] 0)
  /\ pop_front (Message [frame_of_bytes (bytes_of "frame 1"); f2] 0)
     = Returns m.
Proof. split; reflexivity. Qed.

End Tests.
